(** * xarm_planner: the orbit generator and frame plumbing of
      [xarm_planning_client.py], embedded over the real numbers.

    Python floats are idealised as exact reals ([R]); the one place where
    IEEE arithmetic is visible in the control flow, a division by a zero
    norm (NumPy yields a non-finite array and a warning, never an
    exception), is kept explicit in the type [ndarray].  Python [int] is
    [Z], [str] is [string], exceptions are the left summand of a sum. *)

From Stdlib Require Import Reals Lra Lia ZArith List String Bool.
Import ListNotations.

Open Scope R_scope.

(** ** Vectors ([np.array] of three floats) *)

Record vec3 : Type := mkVec { vx : R; vy : R; vz : R }.

Definition vsub (a b : vec3) : vec3 :=
  mkVec (vx a - vx b) (vy a - vy b) (vz a - vz b).

Definition vscale (k : R) (a : vec3) : vec3 :=
  mkVec (k * vx a) (k * vy a) (k * vz a).

(** [np.linalg.norm] on a vector of three components. *)
Definition norm (a : vec3) : R :=
  sqrt (vx a * vx a + vy a * vy a + vz a * vz a).

(** The value of an array expression that may have divided by zero. *)
Inductive ndarray : Type :=
| Finite (v : vec3)
| NonFinite.

(** [v / s] on a NumPy array: element-wise, and a zero divisor gives
    [nan]/[inf] entries instead of raising.  Over the reals the divisor
    is zero only for the zero vector; magnitudes whose squares leave the
    range of binary64 are outside this idealisation. *)
Definition np_div (v : vec3) (s : R) : ndarray :=
  if Req_dec_T s 0 then NonFinite else Finite (vscale (/ s) v).

(** [math.atan2(y, x)], by quadrant. *)
Definition atan2 (y x : R) : R :=
  if Rlt_dec 0 x then atan (y / x)
  else if Rlt_dec x 0 then
         (if Rle_dec 0 y then atan (y / x) + PI else atan (y / x) - PI)
  else if Rlt_dec 0 y then PI / 2
  else if Rlt_dec y 0 then - (PI / 2)
  else 0.

(** ** Rotations ([scipy.spatial.transform.Rotation])

    A rotation is stored as a quaternion in scalar-last order
    [(x, y, z, w)], which is also what [as_quat] hands back. *)

Record Quaternion : Type := mkQuat { qx : R; qy : R; qz : R; qw : R }.

Definition Rotation : Type := Quaternion.

Definition qnorm2 (q : Rotation) : R :=
  qx q * qx q + qy q * qy q + qz q * qz q + qw q * qw q.

Definition unit_quat (q : Rotation) : Prop := qnorm2 q = 1.

Definition qnormalize (q : Rotation) : Rotation :=
  let n := sqrt (qnorm2 q) in
  mkQuat (qx q / n) (qy q / n) (qz q / n) (qw q / n).

(** The Hamilton product used by [Rotation.__mul__]. *)
Definition compose_quat (p q : Rotation) : Rotation :=
  mkQuat
    (qw p * qx q + qw q * qx p + (qy p * qz q - qz p * qy q))
    (qw p * qy q + qw q * qy p + (qz p * qx q - qx p * qz q))
    (qw p * qz q + qw q * qz p + (qx p * qy q - qy p * qx q))
    (qw p * qw q - qx p * qx q - qy p * qy q - qz p * qz q).

(** [p * q] on rotations with real entries: compose, then renormalise. *)
Definition rot_mul (p q : Rotation) : Rotation :=
  qnormalize (compose_quat p q).

(** A [Rotation] object as a SciPy call hands it back: one with real
    entries, or one whose quaternion holds nan, which is what comes out of
    a computation on a non-finite array. *)
Inductive RotationObject : Type :=
| Real (q : Rotation)
| NaN.

(** [Rotation.from_euler('z', a)]. *)
Definition from_euler_z (a : R) : Rotation :=
  mkQuat 0 0 (sin (a / 2)) (cos (a / 2)).

(** [Rotation.apply]: the matrix of [as_matrix] times the vector. *)
Definition rot_apply (q : Rotation) (v : vec3) : vec3 :=
  let x := qx q in let y := qy q in let z := qz q in let w := qw q in
  mkVec
    ((x*x - y*y - z*z + w*w) * vx v + 2 * (x*y - z*w) * vy v
       + 2 * (x*z + y*w) * vz v)
    (2 * (x*y + z*w) * vx v + (- (x*x) + y*y - z*z + w*w) * vy v
       + 2 * (y*z - x*w) * vz v)
    (2 * (x*z - y*w) * vx v + 2 * (y*z + x*w) * vy v
       + (- (x*x) - y*y + z*z + w*w) * vz v).

(** Two quaternions denote the same rotation when they move every vector
    alike ([q] and [-q] do). *)
Definition same_rotation (p q : Rotation) : Prop :=
  forall v, rot_apply p v = rot_apply q v.

(** ** Messages *)

Record Pose : Type := mkPose { position : vec3; orientation : Quaternion }.

Record Transform : Type :=
  mkTransform { translation : vec3; rotation : Quaternion }.

Record TransformStamped : Type :=
  mkStamped { frame_id : string; child_frame_id : string }.

(** ** Exceptions and the client monad *)

Inductive exn : Type :=
| TransformException
| ValueError.

Definition result (A : Type) : Type := (exn + A)%type.

(** The fields of [XArmPlanningClient] that the modelled methods touch.
    [tf_buffer target source] is [Buffer.lookup_transform]: the transform
    of [source] expressed in [target], or the exception raised after the
    timeout. *)
Record Client : Type := mkClient {
  camera_link : string;
  base_link_name : string;
  tf_buffer : string -> string -> result Transform;
  _circular_path_initial_position : vec3;
  _circular_path_initial_orientation : Quaternion;
  _circular_path_angle_offset : R
}.

Definition set_initial_position (p : vec3) (c : Client) : Client :=
  mkClient (camera_link c) (base_link_name c) (tf_buffer c)
           p (_circular_path_initial_orientation c)
           (_circular_path_angle_offset c).

Definition set_initial_orientation (q : Quaternion) (c : Client) : Client :=
  mkClient (camera_link c) (base_link_name c) (tf_buffer c)
           (_circular_path_initial_position c) q
           (_circular_path_angle_offset c).

Definition set_angle_offset (a : R) (c : Client) : Client :=
  mkClient (camera_link c) (base_link_name c) (tf_buffer c)
           (_circular_path_initial_position c)
           (_circular_path_initial_orientation c) a.

(** A method body: it reads and writes [self] and either returns or
    raises; what was written before a raise stays written. *)
Definition M (A : Type) : Type := Client -> result A * Client.

Definition ret {A} (a : A) : M A := fun s => (inr a, s).

Definition bind {A B} (m : M A) (f : A -> M B) : M B :=
  fun s => match m s with
           | (inl e, s') => (inl e, s')
           | (inr a, s') => f a s'
           end.

Definition lift {A} (r : result A) : M A := fun s => (r, s).

Definition gets {A} (f : Client -> A) : M A := fun s => (inr (f s), s).

Definition modify (f : Client -> Client) : M unit := fun s => (inr tt, f s).

Declare Scope client_scope.
Delimit Scope client_scope with client.
Notation "x <- m ;; k" := (bind m (fun x => k))
  (at level 61, m at next level, right associativity) : client_scope.
Notation "m ;; k" := (bind m (fun _ => k))
  (at level 61, right associativity) : client_scope.
Open Scope client_scope.

(** [range(lo, hi)] *)
Definition range (lo hi : Z) : list Z :=
  map (fun k => (lo + Z.of_nat k)%Z) (seq 0 (Z.to_nat (hi - lo))).

Definition ref_forward : vec3 := mkVec 0 0 1.

(** ** The motion facade: [get_current_pose] *)

Definition get_current_pose (frame : string) : M Pose :=
  target <- gets base_link_name ;;
  buffer <- gets tf_buffer ;;
  current_transform <- lift (buffer target frame) ;;
  ret (mkPose
         (mkVec (vx (translation current_transform))
                (vy (translation current_transform))
                (vz (translation current_transform)))
         (mkQuat (qx (rotation current_transform))
                 (qy (rotation current_transform))
                 (qz (rotation current_transform))
                 (qw (rotation current_transform)))).

(** ** The orbit generator *)

Definition _normalize (v : vec3) : ndarray := np_div v (norm v).

Definition _compute_initial_angle (center : vec3) : M unit :=
  p <- gets _circular_path_initial_position ;;
  let delta_x := vx p - vx center in
  let delta_y := vy p - vy center in
  modify (set_angle_offset (atan2 delta_y delta_x)).

(** The two Euler angles of the roll correction, as one function of the
    orbit angle. *)
Definition roll (angle : R) : R :=
  if Rle_dec angle PI then - (PI / 2) * cos angle
  else (PI / 2) * cos angle + PI.

(** [p * q] as line 255 has it, with a [p] that may hold nan: SciPy
    refuses to build the product rotation from a quaternion holding nan
    and raises [ValueError]. *)
Definition rot_times (p : RotationObject) (q : Rotation) : result Rotation :=
  match p with
  | Real p => inr (rot_mul p q)
  | NaN => inl ValueError
  end.

Section Orbit.

(** [Rotation.align_vectors([a], [b])] for one pair of vectors, the
    rotation part of its result.  It belongs to SciPy; the generator is
    verified against its documented contract for the reference axis the
    code passes: a rotation that carries [b] onto the unit vector [a].
    About a non-finite [a] the one assumption made, and only where it is
    stated, is [nan_in_nan_out]. *)
Variable align_vectors : ndarray -> vec3 -> result RotationObject.

Definition aligns_reference : Prop :=
  forall d : vec3, norm d = 1 ->
    exists r : Rotation,
      align_vectors (Finite d) ref_forward = inr (Real r) /\
      unit_quat r /\ rot_apply r ref_forward = d.


Definition _gaze_at (center_point ideal_camera_position initial_y : vec3)
  : result RotationObject :=
  let direction := vsub center_point ideal_camera_position in
  let direction := _normalize direction in
  align_vectors direction ref_forward.

Definition default_initial_y : vec3 := mkVec 0 1 0.

(** The two [print] calls of the body write to standard output only and
    are left out. *)
Definition _compute_pose_on_circle (center : vec3) (angle : R) : M Pose :=
  angle_offset <- gets _circular_path_angle_offset ;;
  initial_position <- gets _circular_path_initial_position ;;
  let total_angle := angle_offset + angle in
  let radius := norm (vsub initial_position center) in
  let x := vx center + radius * cos total_angle in
  let y := vy center + radius * sin total_angle in
  let z := vz initial_position in
  let camera_position := mkVec x y z in
  rotation <- lift (_gaze_at center camera_position default_initial_y) ;;
  let offset :=
    if Rle_dec angle PI
    then from_euler_z (- (PI / 2) * cos angle)
    else from_euler_z ((PI / 2) * cos angle + PI) in
  orientation <- lift (rot_times rotation offset) ;;
  ret (mkPose (mkVec x y z)
              (mkQuat (qx orientation) (qy orientation)
                      (qz orientation) (qw orientation))).

(** The body of [for i in range(1, num_waypoints)], with the list that
    [waypoints.append] grows. *)
Fixpoint waypoint_loop (center : vec3) (num_waypoints : Z)
         (indices : list Z) (waypoints : list Pose) : M (list Pose) :=
  match indices with
  | [] => ret waypoints
  | i :: rest =>
      let angle := 2 * PI * IZR i / IZR num_waypoints in
      pose <- _compute_pose_on_circle center angle ;;
      waypoint_loop center num_waypoints rest (waypoints ++ [pose])
  end.

Definition surround_and_lock (center : vec3) (num_waypoints : Z)
  : M (list Pose) :=
  link <- gets camera_link ;;
  current_pose <- get_current_pose link ;;
  modify (set_initial_position
            (mkVec (vx (position current_pose))
                   (vy (position current_pose))
                   (vz (position current_pose)))) ;;
  modify (set_initial_orientation
            (mkQuat (qx (orientation current_pose))
                    (qy (orientation current_pose))
                    (qz (orientation current_pose))
                    (qw (orientation current_pose)))) ;;
  _compute_initial_angle center ;;
  waypoint_loop center num_waypoints (range 1 num_waypoints) [].

End Orbit.

(** A rotation library that meets [aligns_reference] and
    [nan_in_nan_out]: the shortest arc from +Z onto [a], with the half
    turn about X when [a] is -Z, and a rotation holding nan for a
    non-finite [a]. *)
Definition shortest_arc_from_z (d : vec3) : Rotation :=
  if Req_dec_T (vz d) (-1) then mkQuat 1 0 0 0
  else qnormalize (mkQuat (- vy d) (vx d) 0 (1 + vz d)).

Definition shortest_arc_align (a : ndarray) (b : vec3)
  : result RotationObject :=
  match a with
  | NonFinite => inr NaN
  | Finite d => inr (Real (shortest_arc_from_z d))
  end.

(** ** Camera-frame discovery in the constructor *)

Definition TFMessage : Type := list TransformStamped.

(** What the discovery loop of [__init__] reads and writes:
    [self.camera_link], the local [counter], the warnings logged and the
    number of subscriptions [_init_camera_link] has created. *)
Record Discovery : Type := mkDiscovery {
  d_camera_link : string;
  counter : Z;
  warnings : list string;
  subscriptions : nat
}.

(** The callback's effect on [self.camera_link]: every record whose parent
    is ['link_eef'] overwrites it in turn (there is no [break]).  The
    [destroy_subscription] call next to the assignment is not tracked. *)
Definition _tf_callback (msg : TFMessage) (camera : string) : string :=
  fold_left
    (fun cam transform =>
       if String.eqb (frame_id transform) "link_eef"
       then child_frame_id transform else cam)
    msg camera.

(** The executor thread running the callback on a batch of messages. *)
Definition deliver (msgs : list TFMessage) (st : Discovery) : Discovery :=
  mkDiscovery (fold_left (fun cam msg => _tf_callback msg cam)
                         msgs (d_camera_link st))
              (counter st) (warnings st) (subscriptions st).

Definition _init_camera_link (st : Discovery) : Discovery :=
  mkDiscovery (d_camera_link st) (counter st) (warnings st)
              (S (subscriptions st)).

Definition fallback_warning : string :=
  "Failed to get the camera link name. Use EEF link instead".

Definition loop_body (st : Discovery) : Discovery :=
  if (counter st <=? 10000)%Z then
    let st := _init_camera_link st in
    mkDiscovery (d_camera_link st) (counter st + 1)%Z (warnings st)
                (subscriptions st)
  else
    mkDiscovery "link_eef" (counter st)
                (warnings st ++ [fallback_warning]) (subscriptions st).

(** [while self.camera_link == '': ...], iteration [k] onwards.  The
    callback runs on another thread: [feed (2k)] is what it receives
    before the loop test of iteration [k], [feed (2k+1)] what it receives
    between that test and the body.  [None] is a loop still running when
    the fuel is spent. *)
Fixpoint discovery_loop (feed : nat -> list TFMessage)
         (fuel k : nat) (st : Discovery) : option Discovery :=
  match fuel with
  | O => None
  | S fuel' =>
      let st := deliver (feed (2 * k)%nat) st in
      if String.eqb (d_camera_link st) "" then
        let st := deliver (feed (2 * k + 1)%nat) st in
        discovery_loop feed fuel' (S k) (loop_body st)
      else Some st
  end.

Definition discovery_start : Discovery := mkDiscovery "" 0 [] 0.

Definition zero_vec : vec3 := mkVec 0 0 0.

(** The constructor, as far as the modelled fields go.  The session
    fields do not exist yet in Python; they are written before they are
    read, so their value here is immaterial. *)
Definition __init__ (feed : nat -> list TFMessage)
           (buffer : string -> string -> result Transform) (fuel : nat)
  : option (Client * list string) :=
  match discovery_loop feed fuel 0 discovery_start with
  | None => None
  | Some st =>
      Some (mkClient (d_camera_link st) "link_base" buffer
                     zero_vec (mkQuat 0 0 0 1) 0,
            warnings st)
  end.

(** No record of the feed has the end-effector frame as parent. *)
Definition no_eef_relation (feed : nat -> list TFMessage) : Prop :=
  forall n msg transform,
    In msg (feed n) -> In transform msg ->
    frame_id transform <> "link_eef"%string.

(** The state in which the waypoint loop of [surround_and_lock] runs, when
    the transform lookup returned [t]. *)
Definition orbit_session (c : Client) (t : Transform) (center : vec3)
  : Client :=
  let c := set_initial_position
             (mkVec (vx (translation t)) (vy (translation t))
                    (vz (translation t))) c in
  let c := set_initial_orientation
             (mkQuat (qx (rotation t)) (qy (rotation t))
                     (qz (rotation t)) (qw (rotation t))) c in
  set_angle_offset
    (atan2 (vy (_circular_path_initial_position c) - vy center)
           (vx (_circular_path_initial_position c) - vx center)) c.

(** Euclidean distance in space, and in the horizontal plane. *)
Definition dist3 (a b : vec3) : R := norm (vsub a b).

Definition dist_xy (a b : vec3) : R :=
  sqrt ((vx a - vx b) * (vx a - vx b) + (vy a - vy b) * (vy a - vy b)).

(** A client whose tracked frame is at [p] with the identity orientation,
    whatever frames are asked for. *)
Definition client_at (p : vec3) : Client :=
  mkClient "link_eef" "link_base"
           (fun _ _ => inr (mkTransform p (mkQuat 0 0 0 1)))
           zero_vec (mkQuat 0 0 0 1) 0.

(** The angle the loop passes for index [i] of [n]. *)
Definition waypoint_angle (n i : Z) : R := 2 * PI * IZR i / IZR n.

(** The loop invariant of the discovery: the callback never touches the
    counter or the subscription count, and the body creates a subscription
    exactly when it advances the counter, which it stops doing past
    10000. *)
Definition counted (st : Discovery) : Prop :=
  (Z.of_nat (subscriptions st) = counter st /\ 0 <= counter st <= 10001)%Z.

(** ** Rotation matrices and [rotate_to_perpendicular] *)

Record mat3 : Type := mkMat {
  m00 : R; m01 : R; m02 : R;
  m10 : R; m11 : R; m12 : R;
  m20 : R; m21 : R; m22 : R
}.

(** [Rotation.as_matrix]. *)
Definition as_matrix (q : Rotation) : mat3 :=
  let x := qx q in let y := qy q in let z := qz q in let w := qw q in
  mkMat (x*x - y*y - z*z + w*w) (2 * (x*y - z*w)) (2 * (x*z + y*w))
        (2 * (x*y + z*w)) (- (x*x) + y*y - z*z + w*w) (2 * (y*z - x*w))
        (2 * (x*z - y*w)) (2 * (y*z + x*w)) (- (x*x) - y*y + z*z + w*w).

(** [a @ b] on 3x3 arrays. *)
Definition mat_mul (a b : mat3) : mat3 :=
  mkMat (m00 a * m00 b + m01 a * m10 b + m02 a * m20 b)
        (m00 a * m01 b + m01 a * m11 b + m02 a * m21 b)
        (m00 a * m02 b + m01 a * m12 b + m02 a * m22 b)
        (m10 a * m00 b + m11 a * m10 b + m12 a * m20 b)
        (m10 a * m01 b + m11 a * m11 b + m12 a * m21 b)
        (m10 a * m02 b + m11 a * m12 b + m12 a * m22 b)
        (m20 a * m00 b + m21 a * m10 b + m22 a * m20 b)
        (m20 a * m01 b + m21 a * m11 b + m22 a * m21 b)
        (m20 a * m02 b + m21 a * m12 b + m22 a * m22 b).

(** [m[:, 2]], the third column. *)
Definition column2 (m : mat3) : vec3 := mkVec (m02 m) (m12 m) (m22 m).

Section Perpendicular.

(** [Rotation.from_matrix], SciPy's; it is used on products of rotation
    matrices only, where its contract is to return a rotation with that
    matrix. *)
Variable from_matrix : mat3 -> Rotation.

Definition inverts_as_matrix : Prop :=
  forall p : Rotation, unit_quat p ->
    unit_quat (from_matrix (as_matrix p)) /\
    as_matrix (from_matrix (as_matrix p)) = as_matrix p.

Definition rotate_to_perpendicular (current_pose : Rotation) : Rotation :=
  let rotation_matrix := as_matrix current_pose in
  let z_axis_current := column2 rotation_matrix in
  let z_axis_xy_projection :=
    mkVec (vx z_axis_current) (vy z_axis_current) 0 in
  let angle_to_rotate :=
    atan2 (vy z_axis_xy_projection) (vx z_axis_xy_projection) in
  let z_rotation := as_matrix (from_euler_z (- angle_to_rotate)) in
  let new_rotation_matrix := mat_mul z_rotation rotation_matrix in
  from_matrix new_rotation_matrix.

End Perpendicular.

(** A [from_matrix] that meets [inverts_as_matrix]: the quaternion is
    read off the largest of the three diagonal entries and the trace (the
    first of the largest, as [argmax] picks), then normalised. *)
Definition argmax4 (d0 d1 d2 d3 : R) : nat :=
  if Rle_dec d1 d0 then
    if Rle_dec d2 d0 then (if Rle_dec d3 d0 then 0 else 3)%nat
    else (if Rle_dec d3 d2 then 2 else 3)%nat
  else
    if Rle_dec d2 d1 then (if Rle_dec d3 d1 then 1 else 3)%nat
    else (if Rle_dec d3 d2 then 2 else 3)%nat.

Definition largest_entry_from_matrix (m : mat3) : Rotation :=
  let t := m00 m + m11 m + m22 m in
  qnormalize
    match argmax4 (m00 m) (m11 m) (m22 m) t with
    | 0%nat => mkQuat (1 - t + 2 * m00 m) (m10 m + m01 m) (m20 m + m02 m)
                      (m21 m - m12 m)
    | 1%nat => mkQuat (m01 m + m10 m) (1 - t + 2 * m11 m) (m21 m + m12 m)
                      (m02 m - m20 m)
    | 2%nat => mkQuat (m02 m + m20 m) (m12 m + m21 m) (1 - t + 2 * m22 m)
                      (m10 m - m01 m)
    | _ => mkQuat (m21 m - m12 m) (m02 m - m20 m) (m10 m - m01 m) (1 + t)
    end.

(** ** The collision scene: [collision_setup] *)

(** The values an obstacle dictionary holds; they are handed to the
    planner as they are. *)
Inductive pyvalue : Type :=
| PStr (s : string)
| PFloat (r : R)
| PTuple (items : list R).

(** [value == 'literal'] *)
Definition is_str (v : pyvalue) (literal : string) : bool :=
  match v with
  | PStr s => String.eqb s literal
  | _ => false
  end.

(** A [dict] with string keys, as its list of items. *)
Definition pydict : Type := list (string * pyvalue).

Inductive KeyError : Type := MissingKey (key : string).

(** [d[key]] *)
Fixpoint getitem (d : pydict) (key : string) : KeyError + pyvalue :=
  match d with
  | [] => inl (MissingKey key)
  | (k, v) :: rest => if String.eqb k key then inr v else getitem rest key
  end.

(** What [collision_setup] does to the outside, in order. *)
Inductive scene_call : Type :=
| ClearAllCollisionObjects
| Sleep
| AddCollisionSphere (id position radius : pyvalue)
| AddCollisionBox (id position quat_xyzw size : pyvalue).

(** One pass of the [for] body. *)
Definition add_obstacle (obstacle : pydict) : list scene_call * option KeyError :=
  match getitem obstacle "type" with
  | inl e => ([], Some e)
  | inr ty =>
      let sphere :=
        if is_str ty "sphere" then
          match getitem obstacle "id" with
          | inl e => ([], Some e)
          | inr id =>
              match getitem obstacle "position" with
              | inl e => ([], Some e)
              | inr position =>
                  match getitem obstacle "radius" with
                  | inl e => ([], Some e)
                  | inr radius =>
                      ([AddCollisionSphere id position radius], None)
                  end
              end
          end
        else ([], None) in
      match sphere with
      | (calls, Some e) => (calls, Some e)
      | (calls, None) =>
          match getitem obstacle "type" with
          | inl e => (calls, Some e)
          | inr ty =>
              if is_str ty "box" then
                match getitem obstacle "id" with
                | inl e => (calls, Some e)
                | inr id =>
                    match getitem obstacle "position" with
                    | inl e => (calls, Some e)
                    | inr position =>
                        match getitem obstacle "quat_xyzw" with
                        | inl e => (calls, Some e)
                        | inr quat_xyzw =>
                            match getitem obstacle "size" with
                            | inl e => (calls, Some e)
                            | inr size =>
                                (calls ++ [AddCollisionBox id position
                                                           quat_xyzw size],
                                 None)
                            end
                        end
                    end
                end
              else (calls, None)
          end
      end
  end.

(** [for obstacle in obstacles: ...]: the calls made, and the exception
    that stopped the loop if one did. *)
Fixpoint add_obstacles (obstacles : list pydict)
  : list scene_call * option KeyError :=
  match obstacles with
  | [] => ([], None)
  | obstacle :: rest =>
      match add_obstacle obstacle with
      | (calls, Some e) => (calls, Some e)
      | (calls, None) =>
          let (more, err) := add_obstacles rest in (calls ++ more, err)
      end
  end.

(** [while not future.done(): time.sleep(0.1)], from the [k]-th call of
    [done] on; [done k] is the answer to that call.  The result is the
    number of sleeps, [None] while still polling when the fuel is
    spent. *)
Fixpoint poll_done (done : nat -> bool) (fuel k : nat) : option nat :=
  match fuel with
  | O => None
  | S fuel' =>
      if done k then Some O
      else match poll_done done fuel' (S k) with
           | None => None
           | Some sleeps => Some (S sleeps)
           end
  end.

(** [collision_setup]; [future] is what [clear_all_collision_objects]
    returned. *)
Definition collision_setup (future : option (nat -> bool))
           (obstacles : list pydict) (fuel : nat)
  : option (list scene_call * option KeyError) :=
  let waited :=
    match future with
    | None => Some O
    | Some done => poll_done done fuel 0
    end in
  match waited with
  | None => None
  | Some sleeps =>
      let (calls, err) := add_obstacles obstacles in
      Some (ClearAllCollisionObjects :: repeat Sleep sleeps ++ calls, err)
  end.

(** The planner calls an obstacle stands for. *)
Definition has_keys (d : pydict) (keys : list string) : Prop :=
  forall k, In k keys -> exists v, getitem d k = inr v.

Definition well_formed (d : pydict) : Prop :=
  exists ty,
    getitem d "type" = inr ty /\
    (is_str ty "sphere" = true ->
     has_keys d ["id"; "position"; "radius"]%string) /\
    (is_str ty "box" = true ->
     has_keys d ["id"; "position"; "quat_xyzw"; "size"]%string).

Definition value_or (d : pydict) (key : string) : pyvalue :=
  match getitem d key with
  | inr v => v
  | inl _ => PStr ""
  end.

Definition calls_of (d : pydict) : list scene_call :=
  if is_str (value_or d "type") "sphere" then
    [AddCollisionSphere (value_or d "id") (value_or d "position")
                        (value_or d "radius")]
  else if is_str (value_or d "type") "box" then
    [AddCollisionBox (value_or d "id") (value_or d "position")
                     (value_or d "quat_xyzw") (value_or d "size")]
  else [].

(** ** Vocabulary for the discovery properties *)

Definition is_eef_record (transform : TransformStamped) : bool :=
  String.eqb (frame_id transform) "link_eef".

(** The child frame of the last record of a message whose parent is the
    end-effector frame. *)
Definition last_eef_child (msg : TFMessage) : option string :=
  match filter is_eef_record (rev msg) with
  | [] => None
  | transform :: _ => Some (child_frame_id transform)
  end.

(** What [self.camera_link] holds after the callback has run on a batch. *)
Definition heard (msgs : list TFMessage) (camera : string) : string :=
  d_camera_link (deliver msgs (mkDiscovery camera 0 [] 0)).

Definition silent_batch (msgs : list TFMessage) : Prop :=
  forall msg transform, In msg msgs -> In transform msg ->
    frame_id transform <> "link_eef"%string.

(** The fallback is logged only once the counter has run out. *)
Definition warned_late (st : Discovery) : Prop :=
  warnings st <> [] -> counter st = 10001%Z.

Definition identity_matrix : mat3 := mkMat 1 0 0 0 1 0 0 0 1.

(** ** Sample inputs *)

Definition sphere_obstacle : pydict :=
  [("type", PStr "sphere"); ("id", PStr "ball");
   ("position", PTuple [1; 0; 0]); ("radius", PFloat 1)]%string.

Definition box_obstacle : pydict :=
  [("type", PStr "box"); ("id", PStr "table");
   ("position", PTuple [-1; 0; 0]); ("quat_xyzw", PTuple [0; 0; 0; 1]);
   ("size", PTuple [1; 1; 1])]%string.

Definition mesh_obstacle : pydict :=
  [("type", PStr "mesh"); ("id", PStr "scan")]%string.

Definition sphere_without_radius : pydict :=
  [("type", PStr "sphere"); ("id", PStr "ball");
   ("position", PTuple [1; 0; 0])]%string.

(** A future that is done from the third call of [done] on. *)
Definition done_after_two (j : nat) : bool := Nat.leb 2 j.

(** The static feed arriving once, while the first attempt is under way:
    two children of the end-effector frame and one unrelated record. *)
Definition static_feed (n : nat) : list TFMessage :=
  if Nat.eqb n 1 then
    [[mkStamped "link_eef" "gripper"; mkStamped "world" "link_base";
      mkStamped "link_eef" "camera_link"]]%string
  else [].

Definition identity_rotation : Rotation := mkQuat 0 0 0 1.

(** A client whose transform buffer knows no frame: every lookup times
    out. *)
Definition deaf_client : Client :=
  mkClient "link_eef" "link_base" (fun _ _ => inl TransformException)
           zero_vec (mkQuat 0 0 0 1) 0.

(** * Properties *)

(** ** Vectors *)

Lemma vec3_eta (v : vec3) : mkVec (vx v) (vy v) (vz v) = v.
Proof. destruct v; reflexivity. Qed.

Lemma quat_eta (q : Quaternion) : mkQuat (qx q) (qy q) (qz q) (qw q) = q.
Proof. destruct q; reflexivity. Qed.

Lemma sumsq_nonneg (a b c : R) : 0 <= a * a + b * b + c * c.
Proof. nra. Qed.

Lemma norm_nonneg (v : vec3) : 0 <= norm v.
Proof. apply sqrt_pos. Qed.

Lemma norm_sqr (v : vec3) :
  norm v * norm v = vx v * vx v + vy v * vy v + vz v * vz v.
Proof. unfold norm. apply sqrt_sqrt, sumsq_nonneg. Qed.

Lemma norm_zero_inv (v : vec3) : norm v = 0 -> v = mkVec 0 0 0.
Proof.
  intro H. pose proof (norm_sqr v) as Hs. rewrite H in Hs.
  destruct v as [x y z]; simpl in *.
  assert (x = 0) by nra. assert (y = 0) by nra. assert (z = 0) by nra.
  subst. reflexivity.
Qed.


Lemma vsub_zero_inv (a b : vec3) : vsub a b = mkVec 0 0 0 -> a = b.
Proof.
  destruct a, b; unfold vsub; simpl. intro H. inversion H.
  f_equal; lra.
Qed.

Lemma dist_pos (a b : vec3) : a <> b -> 0 < norm (vsub a b).
Proof.
  intro Hne. destruct (norm_nonneg (vsub a b)) as [H | H]; [exact H |].
  exfalso. apply Hne, vsub_zero_inv, norm_zero_inv. symmetry; exact H.
Qed.

Lemma norm_vscale (k : R) (v : vec3) : 0 <= k -> norm (vscale k v) = k * norm v.
Proof.
  intro Hk. unfold norm, vscale; simpl.
  replace (k * vx v * (k * vx v) + k * vy v * (k * vy v)
           + k * vz v * (k * vz v))
    with ((k * k) * (vx v * vx v + vy v * vy v + vz v * vz v)) by ring.
  rewrite sqrt_mult by (try apply sumsq_nonneg; nra).
  rewrite sqrt_square by exact Hk. reflexivity.
Qed.

Lemma normalize_finite (v : vec3) :
  norm v <> 0 ->
  _normalize v = Finite (vscale (/ norm v) v) /\
  norm (vscale (/ norm v) v) = 1.
Proof.
  intro Hn. unfold _normalize, np_div.
  destruct (Req_dec_T (norm v) 0) as [E | _]; [contradiction |].
  split; [reflexivity |].
  assert (0 < norm v) by (pose proof (norm_nonneg v); lra).
  rewrite norm_vscale.
  - field. exact Hn.
  - left. apply Rinv_0_lt_compat. assumption.
Qed.


(** ** Quaternions *)

Lemma qnormalize_unit_id (q : Rotation) : unit_quat q -> qnormalize q = q.
Proof.
  unfold unit_quat, qnormalize. intro H. rewrite H, sqrt_1.
  destruct q; simpl. f_equal; field.
Qed.

Lemma compose_quat_norm (p q : Rotation) :
  qnorm2 (compose_quat p q) = qnorm2 p * qnorm2 q.
Proof. unfold qnorm2, compose_quat; simpl. ring. Qed.

Lemma rot_mul_unit (p q : Rotation) :
  unit_quat p -> unit_quat q ->
  rot_mul p q = compose_quat p q /\ unit_quat (rot_mul p q).
Proof.
  intros Hp Hq.
  assert (Hu : unit_quat (compose_quat p q)).
  { unfold unit_quat. rewrite compose_quat_norm, Hp, Hq. ring. }
  unfold rot_mul. rewrite (qnormalize_unit_id _ Hu). split; [reflexivity | exact Hu].
Qed.

Lemma rot_apply_compose (p q : Rotation) (v : vec3) :
  rot_apply (compose_quat p q) v = rot_apply p (rot_apply q v).
Proof. unfold rot_apply, compose_quat; simpl. f_equal; ring. Qed.

Lemma from_euler_z_unit (a : R) : unit_quat (from_euler_z a).
Proof.
  unfold unit_quat, qnorm2, from_euler_z; simpl.
  pose proof (sin2_cos2 (a / 2)) as H. unfold Rsqr in H. lra.
Qed.

Lemma from_euler_z_fixes_forward (a : R) :
  rot_apply (from_euler_z a) ref_forward = ref_forward.
Proof.
  unfold rot_apply, from_euler_z, ref_forward; simpl.
  pose proof (sin2_cos2 (a / 2)) as H. unfold Rsqr in H.
  f_equal; try ring. nra.
Qed.

Lemma qnormalize_unit (q : Rotation) :
  0 < qnorm2 q -> unit_quat (qnormalize q).
Proof.
  intro H. unfold unit_quat, qnormalize, qnorm2 at 1; simpl.
  assert (Hs : sqrt (qnorm2 q) * sqrt (qnorm2 q) = qnorm2 q)
    by (apply sqrt_sqrt; lra).
  assert (Hp : 0 < sqrt (qnorm2 q)) by (apply sqrt_lt_R0; exact H).
  set (n := sqrt (qnorm2 q)) in *.
  replace (qx q / n * (qx q / n) + qy q / n * (qy q / n)
           + qz q / n * (qz q / n) + qw q / n * (qw q / n))
    with (qnorm2 q / (n * n)) by (unfold qnorm2; field; lra).
  rewrite Hs. field. lra.
Qed.

Lemma rot_apply_qnormalize (q : Rotation) (v : vec3) :
  0 < qnorm2 q ->
  rot_apply (qnormalize q) v = vscale (/ qnorm2 q) (rot_apply q v).
Proof.
  intro H.
  assert (Hs : sqrt (qnorm2 q) * sqrt (qnorm2 q) = qnorm2 q)
    by (apply sqrt_sqrt; lra).
  assert (Hp : 0 < sqrt (qnorm2 q)) by (apply sqrt_lt_R0; exact H).
  unfold rot_apply, qnormalize, vscale; simpl.
  set (n := sqrt (qnorm2 q)) in *. rewrite <- Hs.
  f_equal; field; lra.
Qed.

(** ** The shortest-arc library meets the contract *)

Lemma shortest_arc_align_contract : aligns_reference shortest_arc_align.
Proof.
  intros d Hd. exists (shortest_arc_from_z d).
  split; [reflexivity |].
  pose proof (norm_sqr d) as Hs. rewrite Hd in Hs.
  destruct d as [dx dy dz]; simpl in Hs.
  unfold shortest_arc_from_z; simpl.
  destruct (Req_dec_T dz (-1)) as [E | NE].
  - subst dz. assert (dx = 0) by nra. assert (dy = 0) by nra. subst.
    split.
    + unfold unit_quat, qnorm2; simpl. ring.
    + unfold rot_apply, ref_forward; simpl. f_equal; ring.
  - assert (Hz : 0 < 1 + dz) by nra.
    assert (Hq : qnorm2 (mkQuat (- dy) dx 0 (1 + dz)) = 2 * (1 + dz))
      by (unfold qnorm2; simpl; nra).
    split.
    + apply qnormalize_unit. rewrite Hq. lra.
    + rewrite rot_apply_qnormalize by (rewrite Hq; lra).
      rewrite Hq. unfold rot_apply, vscale, ref_forward; simpl.
      f_equal; field_simplify_eq; try lra; nra.
Qed.

(** ** Running the generator *)

Section OrbitProperties.

Variable align_vectors : ndarray -> vec3 -> result RotationObject.

Lemma get_current_pose_run (frame : string) (s : Client) :
  get_current_pose frame s =
  (match tf_buffer s (base_link_name s) frame with
   | inl e => inl e
   | inr t => inr (mkPose (translation t) (rotation t))
   end, s).
Proof.
  unfold get_current_pose, bind, gets, lift, ret.
  destruct (tf_buffer s (base_link_name s) frame) as [e | t];
    [reflexivity |].
  rewrite vec3_eta, quat_eta. reflexivity.
Qed.

Lemma surround_and_lock_run (center : vec3) (n : Z) (s : Client) (t : Transform) :
  tf_buffer s (base_link_name s) (camera_link s) = inr t ->
  surround_and_lock align_vectors center n s =
  waypoint_loop align_vectors center n (range 1 n) []
                (orbit_session s t center).
Proof.
  intro Ht. unfold surround_and_lock.
  unfold bind at 1. unfold gets at 1.
  unfold bind at 1. rewrite get_current_pose_run, Ht.
  reflexivity.
Qed.

Lemma surround_and_lock_lookup_fails (center : vec3) (n : Z) (s : Client) (e : exn) :
  tf_buffer s (base_link_name s) (camera_link s) = inl e ->
  surround_and_lock align_vectors center n s = (inl e, s).
Proof.
  intro Ht. unfold surround_and_lock.
  unfold bind at 1. unfold gets at 1.
  unfold bind at 1. rewrite get_current_pose_run, Ht.
  reflexivity.
Qed.

(** The camera position of [_compute_pose_on_circle]. *)
Lemma compute_pose_run (center : vec3) (angle : R) (s : Client) :
  let total_angle := _circular_path_angle_offset s + angle in
  let radius := norm (vsub (_circular_path_initial_position s) center) in
  let p := mkVec (vx center + radius * cos total_angle)
                 (vy center + radius * sin total_angle)
                 (vz (_circular_path_initial_position s)) in
  _compute_pose_on_circle align_vectors center angle s =
  (match align_vectors (_normalize (vsub center p)) ref_forward with
   | inl e => inl e
   | inr NaN => inl ValueError
   | inr (Real r) => inr (mkPose p (rot_mul r (from_euler_z (roll angle))))
   end, s).
Proof.
  intros total_angle radius p.
  unfold _compute_pose_on_circle, bind, gets, lift, ret, _gaze_at.
  fold total_angle radius p.
  destruct (align_vectors (_normalize (vsub center p)) ref_forward)
    as [e | [r |]]; [reflexivity | | reflexivity].
  unfold rot_times. rewrite quat_eta. unfold roll.
  destruct (Rle_dec angle PI); reflexivity.
Qed.

Lemma waypoint_loop_ok (center : vec3) (n : Z) (s : Client) :
  forall (indices : list Z) (acc : list Pose),
    (forall i, In i indices ->
       exists w, _compute_pose_on_circle align_vectors center
                   (2 * PI * IZR i / IZR n) s = (inr w, s)) ->
    exists ws,
      waypoint_loop align_vectors center n indices acc s
        = (inr (acc ++ ws), s) /\
      Forall2 (fun i w =>
                 _compute_pose_on_circle align_vectors center
                   (2 * PI * IZR i / IZR n) s = (inr w, s))
              indices ws.
Proof.
  induction indices as [| i rest IH]; intros acc Hall.
  - exists []. split; [| constructor].
    simpl. unfold ret. rewrite app_nil_r. reflexivity.
  - destruct (Hall i (or_introl eq_refl)) as [w Hw].
    destruct (IH (acc ++ [w])) as [ws [Hrun Hf]].
    { intros j Hj. apply Hall. right; exact Hj. }
    exists (w :: ws). split.
    + simpl. unfold bind. rewrite Hw. rewrite Hrun.
      rewrite <- app_assoc. reflexivity.
    + constructor; assumption.
Qed.


Lemma range_length (lo hi : Z) : List.length (range lo hi) = Z.to_nat (hi - lo).
Proof. unfold range. rewrite length_map, length_seq. reflexivity. Qed.

Lemma range_nth (lo hi : Z) (k : nat) :
  (k < Z.to_nat (hi - lo))%nat ->
  nth k (range lo hi) 0%Z = (lo + Z.of_nat k)%Z.
Proof.
  intro Hk. unfold range.
  set (f := fun j : nat => (lo + Z.of_nat j)%Z).
  rewrite (nth_indep _ 0%Z (f 0%nat))
    by (rewrite length_map, length_seq; exact Hk).
  rewrite map_nth, seq_nth by exact Hk. reflexivity.
Qed.

Lemma range_empty (lo hi : Z) : (hi <= lo)%Z -> range lo hi = [].
Proof.
  intro H. unfold range.
  replace (Z.to_nat (hi - lo)) with 0%nat by lia. reflexivity.
Qed.

End OrbitProperties.

(** ** The generator on a proper orbit *)

Section OrbitClaims.

Variable align_vectors : ndarray -> vec3 -> result RotationObject.
Hypothesis align_contract : aligns_reference align_vectors.

(** Away from the centre every pose is produced, sits on the circle and
    looks at the centre. *)
Lemma compute_pose_valid (center : vec3) (angle : R) (s : Client) :
  _circular_path_initial_position s <> center ->
  let radius := norm (vsub (_circular_path_initial_position s) center) in
  let total_angle := _circular_path_angle_offset s + angle in
  exists (w : Pose) (gaze : Rotation),
    _compute_pose_on_circle align_vectors center angle s = (inr w, s) /\
    position w = mkVec (vx center + radius * cos total_angle)
                       (vy center + radius * sin total_angle)
                       (vz (_circular_path_initial_position s)) /\
    _gaze_at align_vectors center (position w) default_initial_y
      = inr (Real gaze) /\
    unit_quat gaze /\
    orientation w = rot_mul gaze (from_euler_z (roll angle)) /\
    norm (vsub center (position w)) <> 0 /\
    rot_apply gaze ref_forward
      = vscale (/ norm (vsub center (position w))) (vsub center (position w)).
Proof.
  intros Hne radius total_angle.
  pose proof (compute_pose_run align_vectors center angle s) as Hrun.
  cbv zeta in Hrun. fold radius total_angle in Hrun.
  set (p := mkVec (vx center + radius * cos total_angle)
                  (vy center + radius * sin total_angle)
                  (vz (_circular_path_initial_position s))) in *.
  assert (Hr : 0 < radius) by (apply dist_pos; exact Hne).
  assert (Hd : norm (vsub center p) <> 0).
  { intro H0. apply norm_zero_inv in H0.
    unfold vsub, p in H0; simpl in H0. inversion H0 as [[Hx Hy Hz]].
    pose proof (sin2_cos2 total_angle) as Hsc. unfold Rsqr in Hsc.
    assert (Hc : radius * cos total_angle = 0) by lra.
    assert (Hs : radius * sin total_angle = 0) by lra.
    assert (radius * radius = 0) by nra. nra. }
  destruct (normalize_finite _ Hd) as [Hn Hu].
  destruct (align_contract _ Hu) as [r [Hr1 [Hr2 Hr3]]].
  exists (mkPose p (rot_mul r (from_euler_z (roll angle)))), r.
  rewrite Hrun, Hn, Hr1. simpl.
  unfold _gaze_at. rewrite Hn, Hr1.
  repeat split; try assumption.
Qed.

Lemma orbit_session_position (s : Client) (t : Transform) (center : vec3) :
  _circular_path_initial_position (orbit_session s t center) = translation t.
Proof. unfold orbit_session; simpl. apply vec3_eta. Qed.

(** The waypoints of a proper orbit, index by index. *)
Lemma orbit_waypoints (center : vec3) (n : Z) (s : Client) (t : Transform) :
  tf_buffer s (base_link_name s) (camera_link s) = inr t ->
  translation t <> center ->
  exists ws,
    surround_and_lock align_vectors center n s
      = (inr ws, orbit_session s t center) /\
    Forall2 (fun i w =>
               _compute_pose_on_circle align_vectors center
                 (waypoint_angle n i) (orbit_session s t center)
               = (inr w, orbit_session s t center))
            (range 1 n) ws.
Proof.
  intros Ht Hne.
  rewrite (surround_and_lock_run align_vectors center n s t Ht).
  destruct (waypoint_loop_ok align_vectors center n
              (orbit_session s t center) (range 1 n) []) as [ws [Hrun Hf]].
  - intros i _.
    destruct (compute_pose_valid center (2 * PI * IZR i / IZR n)
                (orbit_session s t center)) as [w [g [Hw _]]].
    + rewrite orbit_session_position. exact Hne.
    + exists w. exact Hw.
  - exists ws. split; [exact Hrun | exact Hf].
Qed.

Lemma Forall2_In_r {A B} (P : A -> B -> Prop) (l : list A) (l' : list B) (b : B) :
  Forall2 P l l' -> In b l' -> exists a, In a l /\ P a b.
Proof.
  induction 1 as [| x y l l' Hxy _ IH]; intros Hin; [destruct Hin |].
  destruct Hin as [-> | Hin].
  - exists x. split; [left; reflexivity | exact Hxy].
  - destruct (IH Hin) as [a [Ha HP]]. exists a. split; [right |]; assumption.
Qed.

Lemma Forall2_nth {A B} (P : A -> B -> Prop) (l : list A) (l' : list B)
      (da : A) (db : B) :
  Forall2 P l l' ->
  forall k, (k < List.length l')%nat -> P (nth k l da) (nth k l' db).
Proof.
  induction 1 as [| x y l l' Hxy _ IH]; intros k Hk; simpl in *; [lia |].
  destruct k; [exact Hxy | apply IH; lia].
Qed.

(** C2: with [N >= 2] waypoints requested on a session that started away
    from the centre, [surround_and_lock] returns exactly [N - 1] poses,
    and the pose at position [k] of the list is the one computed for
    index [i = k + 1], at angle [2*pi*i/N]: one pose per index of
    [[1, N)], in increasing order. *)
Theorem surround_and_lock_count (center : vec3) (n : Z) (s : Client) (t : Transform) :
  tf_buffer s (base_link_name s) (camera_link s) = inr t ->
  translation t <> center ->
  (2 <= n)%Z ->
  exists ws,
    fst (surround_and_lock align_vectors center n s) = inr ws /\
    Z.of_nat (List.length ws) = (n - 1)%Z /\
    forall k, (k < List.length ws)%nat ->
      _compute_pose_on_circle align_vectors center
        (2 * PI * IZR (1 + Z.of_nat k) / IZR n) (orbit_session s t center)
      = (inr (nth k ws (mkPose zero_vec (mkQuat 0 0 0 1))),
         orbit_session s t center).
Proof.
  intros Ht Hne Hn.
  destruct (orbit_waypoints center n s t Ht Hne) as [ws [Hrun Hf]].
  exists ws. rewrite Hrun. split; [reflexivity |].
  assert (Hlen : List.length ws = Z.to_nat (n - 1)).
  { rewrite <- (Forall2_length Hf). apply range_length. }
  split; [lia |].
  intros k Hk.
  pose proof (Forall2_nth _ _ _ 0%Z (mkPose zero_vec (mkQuat 0 0 0 1)) Hf k Hk)
    as Hnth.
  cbv beta in Hnth. rewrite range_nth in Hnth by lia. exact Hnth.
Qed.

(** Where a waypoint of a proper orbit lies relative to the centre. *)
Lemma waypoint_geometry (center : vec3) (n : Z) (s : Client) (t : Transform)
      (ws : list Pose) (w : Pose) :
  tf_buffer s (base_link_name s) (camera_link s) = inr t ->
  translation t <> center ->
  fst (surround_and_lock align_vectors center n s) = inr ws ->
  In w ws ->
  vz (position w) = vz (translation t) /\
  dist_xy (position w) center = dist3 (translation t) center /\
  dist3 (position w) center * dist3 (position w) center
  = dist3 (translation t) center * dist3 (translation t) center
    + (vz (translation t) - vz center) * (vz (translation t) - vz center).
Proof.
  intros Ht Hne Hrun Hin.
  destruct (orbit_waypoints center n s t Ht Hne) as [ws' [Hrun' Hf]].
  rewrite Hrun' in Hrun. simpl in Hrun. inversion Hrun; subst ws'.
  destruct (Forall2_In_r _ _ _ _ Hf Hin) as [i [_ Hw]].
  destruct (compute_pose_valid center (waypoint_angle n i)
              (orbit_session s t center)) as [w' [g [Hw' [Hpos _]]]].
  { rewrite orbit_session_position. exact Hne. }
  rewrite Hw in Hw'. inversion Hw'; subst w'. clear Hw'.
  rewrite orbit_session_position in Hpos.
  set (a := _circular_path_angle_offset (orbit_session s t center)
            + waypoint_angle n i) in *.
  unfold dist3 in *. set (r := norm (vsub (translation t) center)) in *.
  assert (Hr : 0 <= r) by apply norm_nonneg.
  pose proof (sin2_cos2 a) as Hsc. unfold Rsqr in Hsc.
  rewrite Hpos. simpl.
  split; [reflexivity |]. split.
  - unfold dist_xy; simpl.
    replace ((vx center + r * cos a - vx center)
             * (vx center + r * cos a - vx center)
             + (vy center + r * sin a - vy center)
               * (vy center + r * sin a - vy center))
      with (r * r) by (rewrite <- (Rmult_1_r (r * r)), <- Hsc; ring).
    apply sqrt_square. exact Hr.
  - rewrite norm_sqr. simpl.
    rewrite <- (Rmult_1_r (r * r)), <- Hsc. ring.
Qed.

(** C1 (amended): on a session started at [P0 <> center], every returned
    waypoint keeps the height of [P0] and lies at horizontal distance
    [|P0 - center|] (the distance in space) from the centre; its distance
    in space from the centre equals [|P0 - center|] exactly when [P0] is
    level with the centre. *)
Theorem waypoint_radius (center : vec3) (n : Z) (s : Client) (t : Transform)
        (ws : list Pose) (w : Pose) :
  tf_buffer s (base_link_name s) (camera_link s) = inr t ->
  translation t <> center ->
  fst (surround_and_lock align_vectors center n s) = inr ws ->
  In w ws ->
  vz (position w) = vz (translation t) /\
  dist_xy (position w) center = dist3 (translation t) center /\
  (dist3 (position w) center = dist3 (translation t) center
   <-> vz (translation t) = vz center).
Proof.
  intros Ht Hne Hrun Hin.
  destruct (waypoint_geometry center n s t ws w Ht Hne Hrun Hin)
    as [Hz [Hxy Hsq]].
  split; [exact Hz |]. split; [exact Hxy |].
  pose proof (norm_nonneg (vsub (position w) center)) as Hd.
  pose proof (norm_nonneg (vsub (translation t) center)) as Hr.
  unfold dist3 in *.
  set (d := norm (vsub (position w) center)) in *.
  set (r := norm (vsub (translation t) center)) in *.
  split.
  - intro E. rewrite E in Hsq. nra.
  - intro E. rewrite E in Hsq. nra.
Qed.

(** C5: on a session started at [P0 <> center], the orientation of every
    returned waypoint is the gaze rotation times the roll correction (in
    that order), and it carries the reference forward axis [(0,0,1)] onto
    the normalisation of [center - position]: a unit vector, and a
    positive multiple of [center - position]. *)
Theorem waypoint_gaze (center : vec3) (n : Z) (s : Client) (t : Transform)
        (ws : list Pose) (w : Pose) :
  tf_buffer s (base_link_name s) (camera_link s) = inr t ->
  translation t <> center ->
  fst (surround_and_lock align_vectors center n s) = inr ws ->
  In w ws ->
  (exists (i : Z) (gaze : Rotation),
      In i (range 1 n) /\
      _gaze_at align_vectors center (position w) default_initial_y
        = inr (Real gaze) /\
      orientation w = rot_mul gaze (from_euler_z (roll (waypoint_angle n i)))) /\
  _normalize (vsub center (position w))
    = Finite (rot_apply (orientation w) ref_forward) /\
  norm (rot_apply (orientation w) ref_forward) = 1 /\
  exists k : R,
    0 < k /\
    rot_apply (orientation w) ref_forward
      = vscale k (vsub center (position w)).
Proof.
  intros Ht Hne Hrun Hin.
  destruct (orbit_waypoints center n s t Ht Hne) as [ws' [Hrun' Hf]].
  rewrite Hrun' in Hrun. simpl in Hrun. inversion Hrun; subst ws'.
  destruct (Forall2_In_r _ _ _ _ Hf Hin) as [i [Hi Hw]].
  destruct (compute_pose_valid center (waypoint_angle n i)
              (orbit_session s t center))
    as [w' [g [Hw' [_ [Hg [Hu [Ho [Hd Ha]]]]]]]].
  { rewrite orbit_session_position. exact Hne. }
  rewrite Hw in Hw'. inversion Hw'; subst w'. clear Hw'.
  destruct (rot_mul_unit g (from_euler_z (roll (waypoint_angle n i))) Hu
              (from_euler_z_unit _)) as [Hmul _].
  assert (Hfw : rot_apply (orientation w) ref_forward
                = vscale (/ norm (vsub center (position w)))
                         (vsub center (position w))).
  { rewrite Ho, Hmul, rot_apply_compose, from_euler_z_fixes_forward.
    exact Ha. }
  destruct (normalize_finite _ Hd) as [Hn H1].
  split; [exists i, g; repeat split; assumption |].
  rewrite Hfw. split; [exact Hn |]. split; [exact H1 |].
  exists (/ norm (vsub center (position w))). split; [| reflexivity].
  apply Rinv_0_lt_compat.
  pose proof (norm_nonneg (vsub center (position w))). lra.
Qed.

End OrbitClaims.

(** ** No argument checks: short counts and the degenerate centre *)

Section Unchecked.

Variable align_vectors : ndarray -> vec3 -> result RotationObject.

Lemma surround_and_lock_short (center : vec3) (n : Z) (s : Client) (t : Transform) :
  tf_buffer s (base_link_name s) (camera_link s) = inr t ->
  (n < 2)%Z ->
  surround_and_lock align_vectors center n s
    = (inr [], orbit_session s t center).
Proof.
  intros Ht Hn.
  rewrite (surround_and_lock_run align_vectors center n s t Ht).
  rewrite range_empty by lia. reflexivity.
Qed.




Lemma Forall2_Forall_r {A B} (P : A -> B -> Prop) (Q : B -> Prop)
      (l : list A) (l' : list B) :
  (forall a b, P a b -> Q b) -> Forall2 P l l' -> Forall Q l'.
Proof.
  intros HPQ. induction 1; constructor; eauto.
Qed.


(** C4 (amended): a count below 2 is not rejected; once the current pose
    has been read, [surround_and_lock] returns the empty list and signals
    nothing. *)
Theorem surround_and_lock_count_below_two (center : vec3) (n : Z) (s : Client)
        (t : Transform) :
  tf_buffer s (base_link_name s) (camera_link s) = inr t ->
  (n < 2)%Z ->
  fst (surround_and_lock align_vectors center n s) = inr [].
Proof.
  intros Ht Hn. rewrite (surround_and_lock_short center n s t Ht Hn).
  reflexivity.
Qed.

(** C9 (amended): with [num_waypoints] 0 or 1 the loop range
    [range(1, n)] is empty.  If reading the current pose succeeds,
    [surround_and_lock] returns the empty list without raising; if the
    transform lookup raises, that exception, the only one such a call can
    signal, leaves [surround_and_lock] and the client is as it was. *)
Theorem surround_and_lock_zero_or_one (center : vec3) (n : Z) (s : Client) :
  n = 0%Z \/ n = 1%Z ->
  range 1 n = [] /\
  surround_and_lock align_vectors center n s
  = match tf_buffer s (base_link_name s) (camera_link s) with
    | inl e => (inl e, s)
    | inr t => (inr [], orbit_session s t center)
    end.
Proof.
  intros Hn. split.
  - apply range_empty. lia.
  - destruct (tf_buffer s (base_link_name s) (camera_link s))
      as [e | t] eqn:Ht.
    + apply surround_and_lock_lookup_fails. exact Ht.
    + apply surround_and_lock_short; [exact Ht | lia].
Qed.

Lemma normalize_scale (k : R) (v : vec3) :
  0 < k -> norm v <> 0 -> _normalize (vscale k v) = _normalize v.
Proof.
  intros Hk Hv.
  assert (Hn : norm (vscale k v) = k * norm v) by (apply norm_vscale; lra).
  unfold _normalize, np_div. rewrite Hn.
  destruct (Req_dec_T (k * norm v) 0) as [E | _].
  { exfalso. apply Rmult_integral in E. destruct E; [lra | contradiction]. }
  destruct (Req_dec_T (norm v) 0) as [E | _]; [contradiction |].
  f_equal. unfold vscale; simpl. f_equal; field; split; lra.
Qed.

(** C8: the rotation that [_gaze_at] returns for [center <> position] is
    a function of the unit vector of [center - position] alone: two calls
    whose difference vectors are positive multiples of one another return
    the same rotation, whatever [initial_y] each is given. *)
Theorem gaze_at_direction_only (c1 p1 y1 c2 p2 y2 : vec3) (k : R) :
  c2 <> p2 ->
  0 < k ->
  vsub c1 p1 = vscale k (vsub c2 p2) ->
  _gaze_at align_vectors c1 p1 y1 = _gaze_at align_vectors c2 p2 y2 /\
  _gaze_at align_vectors c2 p2 y2
    = align_vectors
        (Finite (vscale (/ norm (vsub c2 p2)) (vsub c2 p2))) ref_forward /\
  norm (vscale (/ norm (vsub c2 p2)) (vsub c2 p2)) = 1.
Proof.
  intros Hne Hk Hd.
  assert (Hn : norm (vsub c2 p2) <> 0).
  { pose proof (dist_pos c2 p2 Hne). lra. }
  destruct (normalize_finite _ Hn) as [Hf Hu].
  unfold _gaze_at. rewrite Hd, (normalize_scale k _ Hk Hn), Hf.
  repeat split. exact Hu.
Qed.

End Unchecked.

(** ** The roll correction *)

Lemma roll_at_PI : roll PI = PI / 2.
Proof.
  unfold roll. destruct (Rle_dec PI PI) as [_ | H]; [| exfalso; lra].
  rewrite cos_PI. field.
Qed.

Lemma roll_gap (x : R) : Rabs (roll x - PI / 2) = PI / 2 * (1 + cos x).
Proof.
  pose proof PI_RGT_0 as HPI. pose proof (COS_bound x) as [Hlo Hhi].
  unfold roll. destruct (Rle_dec x PI).
  - rewrite Rabs_left1 by nra. field.
  - rewrite Rabs_pos_eq by nra. field.
Qed.

Lemma roll_continuous_at_PI : continuity_pt roll PI.
Proof.
  assert (Hg : continuity_pt (fun x => PI / 2 * (1 + cos x)) PI).
  { apply continuity_pt_mult.
    - apply continuity_pt_const. intros x y. reflexivity.
    - apply continuity_pt_plus.
      + apply continuity_pt_const. intros x y. reflexivity.
      + apply continuity_cos. }
  unfold continuity_pt, continue_in, limit1_in, limit_in in *.
  simpl in *. unfold Rdist in *.
  intros eps Heps. destruct (Hg eps Heps) as [alp [Halp Hlim]].
  exists alp. split; [exact Halp |].
  intros x Hx. specialize (Hlim x Hx).
  rewrite roll_at_PI, roll_gap.
  rewrite cos_PI in Hlim.
  replace (PI / 2 * (1 + cos x) - PI / 2 * (1 + -1))
    with (PI / 2 * (1 + cos x)) in Hlim by ring.
  pose proof PI_RGT_0. pose proof (COS_bound x) as [Hlo Hhi].
  rewrite Rabs_pos_eq in Hlim by nra. exact Hlim.
Qed.

Lemma cos_shift_2PI (a : R) : cos (a + 2 * PI) = cos a.
Proof. rewrite cos_plus, cos_2PI, sin_2PI. ring. Qed.

Lemma roll_period_above (a : R) : PI < a -> roll (a + 2 * PI) = roll a.
Proof.
  intro Ha. pose proof PI_RGT_0. unfold roll.
  destruct (Rle_dec (a + 2 * PI) PI); [exfalso; lra |].
  destruct (Rle_dec a PI); [exfalso; lra |].
  rewrite cos_shift_2PI. reflexivity.
Qed.

Lemma roll_period_below (a : R) : a <= - PI -> roll (a + 2 * PI) = roll a.
Proof.
  intro Ha. pose proof PI_RGT_0. unfold roll.
  destruct (Rle_dec (a + 2 * PI) PI); [| exfalso; lra].
  destruct (Rle_dec a PI); [| exfalso; lra].
  rewrite cos_shift_2PI. reflexivity.
Qed.

Lemma from_euler_z_full_turn (a : R) :
  same_rotation (from_euler_z a) (from_euler_z (a + 2 * PI)).
Proof.
  intro v. unfold from_euler_z.
  replace ((a + 2 * PI) / 2) with (a / 2 + PI) by field.
  rewrite neg_sin, neg_cos. unfold rot_apply; simpl. f_equal; ring.
Qed.

Lemma roll_closes_revolution : roll (2 * PI) = roll 0 + 2 * PI.
Proof.
  pose proof PI_RGT_0. unfold roll.
  destruct (Rle_dec (2 * PI) PI); [exfalso; lra |].
  destruct (Rle_dec 0 PI); [| exfalso; lra].
  rewrite cos_2PI, cos_0. field.
Qed.

(** C6 (amended): the roll correction is continuous at [pi], where both
    branches give [pi/2]; [roll (a + 2*pi) = roll a] whenever [a > pi] or
    [a <= -pi], the two arguments then falling in the same branch; and
    over the revolution the generator sweeps the profile closes up:
    [roll (2*pi) = roll 0 + 2*pi], the same rotation about z as
    [roll 0]. *)
Theorem roll_continuous_and_periods :
  continuity_pt roll PI /\
  (- (PI / 2) * cos PI = PI / 2 /\ PI / 2 * cos PI + PI = PI / 2) /\
  (forall a, PI < a \/ a <= - PI -> roll (a + 2 * PI) = roll a) /\
  roll (2 * PI) = roll 0 + 2 * PI /\
  same_rotation (from_euler_z (roll 0)) (from_euler_z (roll (2 * PI))).
Proof.
  split; [exact roll_continuous_at_PI |].
  split; [rewrite cos_PI; split; field |].
  split; [| split].
  - intros a [Ha | Ha];
      [apply roll_period_above | apply roll_period_below]; exact Ha.
  - exact roll_closes_revolution.
  - rewrite roll_closes_revolution. apply from_euler_z_full_turn.
Qed.

(** ** Reading the current pose *)

(** C10: [get_current_pose frame] is the transform the buffer holds for
    source [frame] and target [base_link_name] (['link_base'] on every
    constructed client), copied field by field into a pose, or the
    lookup's exception; it leaves the client as it was, and buffers that
    agree on the lookups into ['link_base'] give the same answer for
    every [frame]. *)
Theorem get_current_pose_in_base_frame (frame : string) (s : Client) :
  base_link_name s = "link_base"%string ->
  get_current_pose frame s =
  (match tf_buffer s "link_base"%string frame with
   | inl e => inl e
   | inr t => inr (mkPose (translation t) (rotation t))
   end, s) /\
  forall s' : Client,
    base_link_name s' = "link_base"%string ->
    (forall source, tf_buffer s' "link_base"%string source
                    = tf_buffer s "link_base"%string source) ->
    fst (get_current_pose frame s') = fst (get_current_pose frame s).
Proof.
  intro Hb. split.
  - rewrite get_current_pose_run, Hb. reflexivity.
  - intros s' Hb' Hagree.
    rewrite !get_current_pose_run, Hb, Hb', Hagree. reflexivity.
Qed.

(** ** Camera-frame discovery *)

Section Discovery.

Variable feed : nat -> list TFMessage.

Lemma discovery_loop_step (fuel k : nat) (st : Discovery) :
  discovery_loop feed (S fuel) k st =
  if String.eqb (d_camera_link (deliver (feed (2 * k)%nat) st)) ""
  then discovery_loop feed fuel (S k)
         (loop_body (deliver (feed (2 * k + 1)%nat)
                             (deliver (feed (2 * k)%nat) st)))
  else Some (deliver (feed (2 * k)%nat) st).
Proof. reflexivity. Qed.

Lemma tf_callback_no_match (msg : TFMessage) :
  (forall transform, In transform msg ->
     frame_id transform <> "link_eef"%string) ->
  forall camera, _tf_callback msg camera = camera.
Proof.
  unfold _tf_callback.
  induction msg as [| tr msg IH]; intros Hno camera; [reflexivity |].
  simpl. destruct (String.eqb_spec (frame_id tr) "link_eef") as [E | _].
  - exfalso. apply (Hno tr); [left; reflexivity | exact E].
  - apply IH. intros tr' Hin. apply Hno. right; exact Hin.
Qed.

Lemma deliver_no_match (msgs : list TFMessage) (st : Discovery) :
  (forall msg transform, In msg msgs -> In transform msg ->
     frame_id transform <> "link_eef"%string) ->
  deliver msgs st = st.
Proof.
  intro Hno. unfold deliver.
  assert (Hc : forall camera,
             fold_left (fun cam msg => _tf_callback msg cam) msgs camera
             = camera).
  { induction msgs as [| msg msgs IH]; intro camera; [reflexivity |].
    simpl. rewrite tf_callback_no_match.
    - apply IH. intros m tr Hm. apply Hno. right; exact Hm.
    - intros tr Htr. apply (Hno msg tr); [left; reflexivity | exact Htr]. }
  rewrite Hc. destruct st; reflexivity.
Qed.

Lemma deliver_counted (msgs : list TFMessage) (st : Discovery) :
  counted st -> counted (deliver msgs st).
Proof. intro H. exact H. Qed.

Lemma loop_body_counted (st : Discovery) : counted st -> counted (loop_body st).
Proof.
  unfold counted, loop_body. intros [Hs Hc].
  destruct (Z.leb_spec (counter st) 10000); simpl; lia.
Qed.

Lemma discovery_loop_counted (fuel : nat) :
  forall k st st',
    counted st -> discovery_loop feed fuel k st = Some st' -> counted st'.
Proof.
  induction fuel as [| fuel IH]; intros k st st' Hst Hrun; [discriminate |].
  rewrite discovery_loop_step in Hrun.
  destruct (String.eqb _ _).
  - eapply IH; [| exact Hrun].
    apply loop_body_counted, deliver_counted, deliver_counted, Hst.
  - inversion Hrun; subst. apply deliver_counted, Hst.
Qed.

Hypothesis feed_silent : no_eef_relation feed.

Lemma deliver_feed (n : nat) (st : Discovery) : deliver (feed n) st = st.
Proof.
  apply deliver_no_match. intros msg tr Hm Htr.
  exact (feed_silent n msg tr Hm Htr).
Qed.

Lemma discovery_exhausts (m : nat) :
  forall (c : Z) (k : nat) (w : list string) (subs extra : nat),
    c = (10001 - Z.of_nat m)%Z ->
    discovery_loop feed (m + 2 + extra) k (mkDiscovery "" c w subs)
    = Some (mkDiscovery "link_eef" 10001 (w ++ [fallback_warning])
                        (subs + m)).
Proof.
  induction m as [| m IH]; intros c k w subs extra Hc.
  - change (0 + 2 + extra)%nat with (S (S extra)).
    rewrite discovery_loop_step, !deliver_feed. cbn [d_camera_link String.eqb].
    unfold loop_body. cbn [counter warnings subscriptions].
    destruct (Z.leb_spec c 10000) as [Hle | _]; [exfalso; lia |].
    rewrite discovery_loop_step, !deliver_feed. cbn [d_camera_link].
    change (String.eqb "link_eef" "") with false. cbv iota.
    subst c. rewrite Nat.add_0_r. reflexivity.
  - change (S m + 2 + extra)%nat with (S (m + 2 + extra)).
    rewrite discovery_loop_step, !deliver_feed. cbn [d_camera_link String.eqb].
    unfold loop_body, _init_camera_link.
    cbn [counter warnings subscriptions d_camera_link].
    destruct (Z.leb_spec c 10000) as [_ | Hgt]; [| exfalso; lia].
    rewrite (IH (c + 1)%Z) by lia.
    f_equal. f_equal. lia.
Qed.

End Discovery.

(** C7: the discovery loop creates at most 10001 subscriptions on any run
    that ends; and when no record delivered to the callback has the
    end-effector frame as parent, the loop ends after its 10001 attempts
    and the fallback, leaving ['link_eef'] as the camera frame and the one
    warning logged, so that the constructor returns a client. *)
Theorem camera_discovery_fallback (feed : nat -> list TFMessage)
        (buffer : string -> string -> result Transform) :
  (forall fuel st,
      discovery_loop feed fuel 0 discovery_start = Some st ->
      (Z.of_nat (subscriptions st) <= 10001)%Z) /\
  (no_eef_relation feed ->
   forall fuel, (10003 <= Z.of_nat fuel)%Z ->
     discovery_loop feed fuel 0 discovery_start
       = Some (mkDiscovery "link_eef" 10001 [fallback_warning]
                           (Z.to_nat 10001)) /\
     exists c,
       __init__ feed buffer fuel = Some (c, [fallback_warning]) /\
       camera_link c = "link_eef"%string /\
       base_link_name c = "link_base"%string).
Proof.
  split.
  - intros fuel st Hrun.
    assert (Hc : counted st).
    { eapply discovery_loop_counted; [| exact Hrun].
      unfold counted, discovery_start; simpl. lia. }
    destruct Hc as [Hs Hc]. lia.
  - intros Hsilent fuel Hfuel.
    assert (Hrun : discovery_loop feed fuel 0 discovery_start
                   = Some (mkDiscovery "link_eef" 10001 [fallback_warning]
                                       (Z.to_nat 10001))).
    { replace fuel
        with (Z.to_nat 10001 + 2 + (fuel - Z.to_nat 10003))%nat by lia.
      unfold discovery_start.
      rewrite (discovery_exhausts feed Hsilent (Z.to_nat 10001) 0%Z)
        by lia.
      reflexivity. }
    split; [exact Hrun |].
    unfold __init__. rewrite Hrun. eexists. split; [reflexivity |].
    split; reflexivity.
Qed.

(** ** The claims at concrete sessions *)

Lemma client_at_lookup (p : vec3) :
  tf_buffer (client_at p) (base_link_name (client_at p))
            (camera_link (client_at p))
  = inr (mkTransform p (mkQuat 0 0 0 1)).
Proof. reflexivity. Qed.

Lemma unit_x_off_origin : mkVec 1 0 0 <> zero_vec.
Proof. unfold zero_vec. intro E. inversion E. lra. Qed.

(** Two waypoints requested: the one pose of the half turn. *)
Lemma orbit_of_two (p center : vec3) :
  p <> center ->
  exists w,
    fst (surround_and_lock shortest_arc_align center 2 (client_at p))
    = inr [w].
Proof.
  intro Hne.
  destruct (orbit_waypoints shortest_arc_align shortest_arc_align_contract
              center 2 (client_at p) _ (client_at_lookup p) Hne)
    as [ws [Hrun Hf]].
  change (range 1 2) with [1%Z] in Hf.
  inversion Hf as [| i w l ws' _ Hrest]; subst.
  inversion Hrest; subst.
  exists w. rewrite Hrun. reflexivity.
Qed.

Lemma surround_and_lock_count_witness :
  exists ws,
    fst (surround_and_lock shortest_arc_align zero_vec 4
           (client_at (mkVec 1 0 0))) = inr ws /\
    Z.of_nat (List.length ws) = 3%Z.
Proof.
  destruct (surround_and_lock_count
              shortest_arc_align shortest_arc_align_contract
              zero_vec 4 (client_at (mkVec 1 0 0)) _
              (client_at_lookup (mkVec 1 0 0)) unit_x_off_origin
              ltac:(lia))
    as [ws [Hrun [Hlen _]]].
  exists ws. split; [exact Hrun | exact Hlen].
Defined.

Lemma waypoint_radius_witness :
  exists ws w,
    fst (surround_and_lock shortest_arc_align zero_vec 2
           (client_at (mkVec 1 0 0))) = inr ws /\
    In w ws /\
    vz (position w) = 0 /\
    dist_xy (position w) zero_vec = dist3 (mkVec 1 0 0) zero_vec /\
    (dist3 (position w) zero_vec = dist3 (mkVec 1 0 0) zero_vec
     <-> 0 = 0).
Proof.
  destruct (orbit_of_two (mkVec 1 0 0) zero_vec unit_x_off_origin)
    as [w Hrun].
  exists [w], w. split; [exact Hrun |]. split; [left; reflexivity |].
  exact (waypoint_radius shortest_arc_align shortest_arc_align_contract
           zero_vec 2 (client_at (mkVec 1 0 0)) _ [w] w
           (client_at_lookup (mkVec 1 0 0)) unit_x_off_origin Hrun
           (or_introl eq_refl)).
Defined.

Lemma waypoint_gaze_witness :
  exists ws w,
    fst (surround_and_lock shortest_arc_align zero_vec 2
           (client_at (mkVec 1 0 0))) = inr ws /\
    In w ws /\
    _normalize (vsub zero_vec (position w))
      = Finite (rot_apply (orientation w) ref_forward) /\
    norm (rot_apply (orientation w) ref_forward) = 1.
Proof.
  destruct (orbit_of_two (mkVec 1 0 0) zero_vec unit_x_off_origin)
    as [w Hrun].
  exists [w], w. split; [exact Hrun |]. split; [left; reflexivity |].
  destruct (waypoint_gaze shortest_arc_align shortest_arc_align_contract
              zero_vec 2 (client_at (mkVec 1 0 0)) _ [w] w
              (client_at_lookup (mkVec 1 0 0)) unit_x_off_origin Hrun
              (or_introl eq_refl))
    as [_ [Hn [Hu _]]].
  split; [exact Hn | exact Hu].
Defined.



Lemma surround_and_lock_count_below_two_witness :
  fst (surround_and_lock shortest_arc_align zero_vec (-3)
         (client_at (mkVec 1 0 0))) = inr [].
Proof.
  exact (surround_and_lock_count_below_two shortest_arc_align
           zero_vec (-3) (client_at (mkVec 1 0 0)) _
           (client_at_lookup (mkVec 1 0 0)) ltac:(lia)).
Defined.

Lemma surround_and_lock_zero_or_one_witness :
  range 1 1 = [] /\
  surround_and_lock shortest_arc_align zero_vec 1 (client_at (mkVec 1 0 0))
  = (inr [], orbit_session (client_at (mkVec 1 0 0))
                           (mkTransform (mkVec 1 0 0) (mkQuat 0 0 0 1))
                           zero_vec).
Proof.
  exact (surround_and_lock_zero_or_one shortest_arc_align
           zero_vec 1 (client_at (mkVec 1 0 0)) (or_intror eq_refl)).
Defined.

Lemma gaze_at_direction_only_witness :
  _gaze_at shortest_arc_align (mkVec 2 0 0) zero_vec (mkVec 0 1 0)
  = _gaze_at shortest_arc_align (mkVec 1 0 0) zero_vec (mkVec 1 0 0).
Proof.
  refine (proj1 (gaze_at_direction_only shortest_arc_align
                   (mkVec 2 0 0) zero_vec (mkVec 0 1 0)
                   (mkVec 1 0 0) zero_vec (mkVec 1 0 0) 2
                   unit_x_off_origin ltac:(lra) _)).
  unfold vsub, vscale, zero_vec; simpl. f_equal; ring.
Defined.

Lemma get_current_pose_in_base_frame_witness :
  get_current_pose "camera_link" (client_at (mkVec 1 0 0))
  = (inr (mkPose (mkVec 1 0 0) (mkQuat 0 0 0 1)), client_at (mkVec 1 0 0)).
Proof.
  exact (proj1 (get_current_pose_in_base_frame "camera_link"
                  (client_at (mkVec 1 0 0)) eq_refl)).
Defined.

Lemma roll_continuous_and_periods_witness :
  roll (2 * PI + 2 * PI) = roll (2 * PI).
Proof.
  destruct roll_continuous_and_periods as [_ [_ [Hper _]]].
  apply Hper. left. pose proof PI_RGT_0. lra.
Defined.

Lemma quiet_feed_silent : no_eef_relation (fun _ => []).
Proof. intros n msg tr Hin. destruct Hin. Qed.

Lemma camera_discovery_fallback_witness :
  exists c,
    __init__ (fun _ => []) (fun _ _ => inl TransformException)
             (Z.to_nat 10003)
    = Some (c, [fallback_warning]) /\
    camera_link c = "link_eef"%string.
Proof.
  destruct (proj2 (camera_discovery_fallback
                     (fun _ => []) (fun _ _ => inl TransformException))
                  quiet_feed_silent (Z.to_nat 10003) ltac:(lia))
    as [_ [c [Hinit [Hcam _]]]].
  exists c. split; [exact Hinit | exact Hcam].
Defined.

(** ** Where the specification and the code part *)

(** Against C1: starting one unit above the centre's level, at
    [(1, 0, 1)] around the origin, the single waypoint of a two-point
    orbit is not at the starting distance from the centre. *)
Lemma waypoint_radius_counterexample :
  exists ws w,
    fst (surround_and_lock shortest_arc_align zero_vec 2
           (client_at (mkVec 1 0 1))) = inr ws /\
    In w ws /\
    dist3 (position w) zero_vec <> dist3 (mkVec 1 0 1) zero_vec.
Proof.
  assert (Hne : mkVec 1 0 1 <> zero_vec).
  { unfold zero_vec. intro E. inversion E. lra. }
  destruct (orbit_of_two (mkVec 1 0 1) zero_vec Hne) as [w Hrun].
  exists [w], w. split; [exact Hrun |]. split; [left; reflexivity |].
  destruct (waypoint_geometry shortest_arc_align shortest_arc_align_contract
              zero_vec 2 (client_at (mkVec 1 0 1)) _ [w] w
              (client_at_lookup (mkVec 1 0 1)) Hne Hrun (or_introl eq_refl))
    as [_ [_ Hsq]].
  simpl in Hsq. intro E. rewrite E in Hsq. lra.
Qed.


(** Against C9: with the transform buffer failing, a call with one
    waypoint requested raises the lookup's exception. *)
Lemma surround_and_lock_zero_or_one_counterexample :
  fst (surround_and_lock shortest_arc_align zero_vec 1 deaf_client)
  = inl TransformException.
Proof.
  rewrite (surround_and_lock_lookup_fails shortest_arc_align zero_vec 1
             deaf_client TransformException eq_refl).
  reflexivity.
Qed.

(** Against C4: a count of 0 is answered with the empty list, not with an
    error. *)
Lemma surround_and_lock_count_below_two_counterexample :
  fst (surround_and_lock shortest_arc_align zero_vec 0
         (client_at (mkVec 1 0 0))) = inr [].
Proof.
  rewrite (surround_and_lock_short shortest_arc_align zero_vec 0
             (client_at (mkVec 1 0 0)) _ (client_at_lookup (mkVec 1 0 0)))
    by lia.
  reflexivity.
Qed.

(** Against C6: at a quarter turn the roll is 0, a full turn later it is
    [pi]: the identity and the half turn about z. *)
Lemma roll_period_counterexample :
  roll (PI / 2) = 0 /\ roll (PI / 2 + 2 * PI) = PI /\
  ~ same_rotation (from_euler_z (roll (PI / 2)))
                  (from_euler_z (roll (PI / 2 + 2 * PI))).
Proof.
  pose proof PI_RGT_0 as HPI.
  assert (H1 : roll (PI / 2) = 0).
  { unfold roll. destruct (Rle_dec (PI / 2) PI); [| exfalso; lra].
    rewrite cos_PI2. ring. }
  assert (H2 : roll (PI / 2 + 2 * PI) = PI).
  { unfold roll. destruct (Rle_dec (PI / 2 + 2 * PI) PI); [exfalso; lra |].
    rewrite cos_shift_2PI, cos_PI2. ring. }
  split; [exact H1 |]. split; [exact H2 |].
  rewrite H1, H2. intro Hsame. specialize (Hsame (mkVec 1 0 0)).
  unfold rot_apply, from_euler_z in Hsame; simpl in Hsame.
  replace (0 / 2) with 0 in Hsame by field.
  rewrite sin_0, cos_0, sin_PI2, cos_PI2 in Hsame.
  inversion Hsame. lra.
Qed.

(** ** The worked scenario of the specification

    Start at [(1, 0, 0)] with the identity orientation, target the
    origin, four waypoints: the bearing offset is [atan2 0 1 = 0], the
    radius 1, and the first of the three poses sits at [(0, 1, 0)] with
    no roll. *)

Lemma atan2_0_1 : atan2 0 1 = 0.
Proof.
  unfold atan2. destruct (Rlt_dec 0 1) as [_ | H]; [| exfalso; lra].
  replace (0 / 1) with 0 by field. apply atan_0.
Qed.

Lemma quarter_angle : waypoint_angle 4 1 = PI / 2.
Proof. unfold waypoint_angle. field. Qed.

Example quarter_turn_scenario :
  exists w1 w2 w3,
    fst (surround_and_lock shortest_arc_align zero_vec 4
           (client_at (mkVec 1 0 0))) = inr [w1; w2; w3] /\
    position w1 = mkVec 0 1 0 /\
    roll (waypoint_angle 4 1) = 0.
Proof.
  destruct (orbit_waypoints shortest_arc_align shortest_arc_align_contract
              zero_vec 4 (client_at (mkVec 1 0 0)) _
              (client_at_lookup (mkVec 1 0 0)) unit_x_off_origin)
    as [ws [Hrun Hf]].
  change (range 1 4) with [1%Z; 2%Z; 3%Z] in Hf.
  inversion Hf as [| i1 w1 l1 ws1 Hw1 Hf1]; subst.
  inversion Hf1 as [| i2 w2 l2 ws2 _ Hf2]; subst.
  inversion Hf2 as [| i3 w3 l3 ws3 _ Hf3]; subst.
  inversion Hf3; subst.
  exists w1, w2, w3. rewrite Hrun. split; [reflexivity |].
  set (sess := orbit_session (client_at (mkVec 1 0 0))
                 (mkTransform (mkVec 1 0 0) (mkQuat 0 0 0 1)) zero_vec) in *.
  destruct (compute_pose_valid shortest_arc_align shortest_arc_align_contract
              zero_vec (waypoint_angle 4 1) sess)
    as [w [g [Hw [Hpos _]]]].
  { unfold sess. rewrite orbit_session_position. exact unit_x_off_origin. }
  rewrite Hw1 in Hw. inversion Hw; subst w. clear Hw.
  assert (Hoff : _circular_path_angle_offset sess = 0).
  { unfold sess, orbit_session, zero_vec; simpl.
    replace (0 - 0) with 0 by ring. replace (1 - 0) with 1 by ring.
    apply atan2_0_1. }
  assert (Hrad : norm (vsub (_circular_path_initial_position sess) zero_vec)
                 = 1).
  { unfold sess, orbit_session, zero_vec, norm, vsub; simpl.
    replace ((1 - 0) * (1 - 0) + (0 - 0) * (0 - 0) + (0 - 0) * (0 - 0))
      with 1 by ring.
    apply sqrt_1. }
  rewrite Hoff, Hrad, quarter_angle in Hpos.
  replace (0 + PI / 2) with (PI / 2) in Hpos by ring.
  rewrite cos_PI2, sin_PI2 in Hpos.
  split.
  - rewrite Hpos. unfold sess, orbit_session, zero_vec; simpl.
    f_equal; ring.
  - rewrite quarter_angle. pose proof PI_RGT_0.
    unfold roll. destruct (Rle_dec (PI / 2) PI); [| exfalso; lra].
    rewrite cos_PI2. ring.
Qed.

(** * Further properties of the code *)

(** ** The bearing of [_compute_initial_angle] *)

Lemma hypot_factor (x y : R) :
  x <> 0 -> sqrt (x * x + y * y) = Rabs x * sqrt (1 + (y / x)²).
Proof.
  intro Hx.
  replace (x * x + y * y) with (x² * (1 + (y / x)²))
    by (unfold Rsqr; field; exact Hx).
  rewrite sqrt_mult.
  - rewrite sqrt_Rsqr_abs. reflexivity.
  - apply Rle_0_sqr.
  - pose proof (Rle_0_sqr (y / x)). lra.
Qed.

Lemma sqrt_one_plus_sqr_pos (t : R) : 0 < sqrt (1 + t²).
Proof. apply sqrt_lt_R0. pose proof (Rle_0_sqr t). lra. Qed.

(** [atan2 y x] is the polar angle of [(x, y)]. *)
Lemma atan2_polar (x y : R) :
  sqrt (x * x + y * y) * cos (atan2 y x) = x /\
  sqrt (x * x + y * y) * sin (atan2 y x) = y.
Proof.
  unfold atan2.
  destruct (Rlt_dec 0 x) as [Hpos | Hnpos].
  - rewrite hypot_factor by lra. rewrite Rabs_pos_eq by lra.
    rewrite cos_atan, sin_atan.
    pose proof (sqrt_one_plus_sqr_pos (y / x)) as Hs.
    split; field; lra.
  - destruct (Rlt_dec x 0) as [Hneg | Hnneg].
    + rewrite hypot_factor by lra. rewrite Rabs_left by lra.
      pose proof (sqrt_one_plus_sqr_pos (y / x)) as Hs.
      destruct (Rle_dec 0 y).
      * rewrite neg_cos, neg_sin, cos_atan, sin_atan. split; field; lra.
      * rewrite cos_minus, sin_minus, cos_PI, sin_PI, cos_atan, sin_atan.
        split; field; lra.
    + assert (x = 0) by lra. subst x.
      replace (0 * 0 + y * y) with (y²) by (unfold Rsqr; ring).
      rewrite sqrt_Rsqr_abs.
      destruct (Rlt_dec 0 y).
      * rewrite cos_PI2, sin_PI2, Rabs_pos_eq by lra. split; ring.
      * destruct (Rlt_dec y 0).
        -- rewrite cos_neg, sin_neg, cos_PI2, sin_PI2, Rabs_left by lra.
           split; ring.
        -- assert (y = 0) by lra. subst y.
           rewrite Rabs_R0. split; ring.
Qed.

Lemma atan2_range (x y : R) : - PI < atan2 y x <= PI.
Proof.
  pose proof PI_RGT_0 as HPI. unfold atan2.
  pose proof (atan_bound (y / x)) as [Hlo Hhi].
  destruct (Rlt_dec 0 x); [lra |].
  destruct (Rlt_dec x 0) as [Hneg | Hnn].
  - destruct (Rle_dec 0 y) as [Hy | Hy].
    + assert (Ht : y / x <= 0).
      { unfold Rdiv. assert (/ x < 0) by (apply Rinv_lt_0_compat; exact Hneg).
        nra. }
      assert (atan (y / x) <= 0).
      { destruct Ht as [Ht | Ht].
        - left. rewrite <- atan_0. apply atan_increasing. exact Ht.
        - rewrite Ht, atan_0. lra. }
      lra.
    + assert (Ht : 0 < y / x).
      { unfold Rdiv. assert (/ x < 0) by (apply Rinv_lt_0_compat; exact Hneg).
        nra. }
      assert (0 < atan (y / x)).
      { rewrite <- atan_0. apply atan_increasing. exact Ht. }
      lra.
  - destruct (Rlt_dec 0 y); [lra |].
    destruct (Rlt_dec y 0); lra.
Qed.

(** X1: after [_compute_initial_angle] the stored offset is the bearing of
    the starting position seen from the centre: it lies in [(-pi, pi]],
    and the centre plus the horizontal distance along that bearing is the
    starting position's [(x, y)].  Nothing else of the client changes. *)
Theorem initial_angle_is_bearing (center : vec3) (s : Client) :
  let s' := snd (_compute_initial_angle center s) in
  let p := _circular_path_initial_position s in
  let offset := _circular_path_angle_offset s' in
  fst (_compute_initial_angle center s) = inr tt /\
  - PI < offset <= PI /\
  vx center + dist_xy p center * cos offset = vx p /\
  vy center + dist_xy p center * sin offset = vy p /\
  s' = set_angle_offset offset s.
Proof.
  cbv zeta. unfold _compute_initial_angle, bind, gets, modify; simpl.
  split; [reflexivity |].
  split; [apply atan2_range |].
  unfold dist_xy.
  destruct (atan2_polar (vx (_circular_path_initial_position s) - vx center)
                        (vy (_circular_path_initial_position s) - vy center))
    as [Hc Hs].
  rewrite Hc, Hs. repeat split; ring.
Qed.

(** ** The roll profile over one revolution *)

(** X2: the roll correction is point-symmetric about the half turn:
    [roll (2*pi - a) + roll a = pi] for every angle, and it stays within
    [[-pi/2, 3*pi/2]]. *)
Theorem roll_symmetric_and_bounded (a : R) :
  roll (2 * PI - a) + roll a = PI /\
  - (PI / 2) <= roll a <= 3 * (PI / 2).
Proof.
  pose proof PI_RGT_0 as HPI. pose proof (COS_bound a) as [Hlo Hhi].
  assert (Hc : cos (2 * PI - a) = cos a).
  { rewrite cos_minus, cos_2PI, sin_2PI. ring. }
  split.
  - unfold roll.
    destruct (Rle_dec (2 * PI - a) PI); destruct (Rle_dec a PI);
      rewrite Hc.
    + assert (a = PI) by lra. subst a. rewrite cos_PI. field.
    + field.
    + field.
    + exfalso; lra.
  - unfold roll. destruct (Rle_dec a PI); split; nra.
Qed.

(** X3: over the revolution the generator sweeps, [0 <= a <= b <= 2*pi],
    the roll correction never decreases; it starts at [-pi/2] and ends a
    full turn later at [3*pi/2]. *)
Theorem roll_monotone (a b : R) :
  0 <= a -> a <= b -> b <= 2 * PI ->
  roll a <= roll b /\ roll 0 = - (PI / 2) /\ roll (2 * PI) = 3 * (PI / 2).
Proof.
  intros Ha Hab Hb. pose proof PI_RGT_0 as HPI.
  split.
  - unfold roll.
    destruct (Rle_dec a PI) as [Ha' | Ha']; destruct (Rle_dec b PI) as [Hb' | Hb'].
    + pose proof (cos_decr_1 a b Ha Ha' ltac:(lra) Hb' Hab). nra.
    + pose proof (COS_bound a) as [? ?]. pose proof (COS_bound b) as [? ?].
      nra.
    + exfalso; lra.
    + pose proof (cos_incr_1 a b ltac:(lra) ltac:(lra) ltac:(lra) Hb Hab).
      nra.
  - unfold roll.
    destruct (Rle_dec 0 PI); [| exfalso; lra].
    destruct (Rle_dec (2 * PI) PI); [exfalso; lra |].
    rewrite cos_0, cos_2PI. split; field.
Qed.

(** ** Sessions of the generator *)

Section Sessions.

Variable align_vectors : ndarray -> vec3 -> result RotationObject.

Lemma compute_pose_keeps_state (center : vec3) (angle : R) (s : Client) :
  snd (_compute_pose_on_circle align_vectors center angle s) = s.
Proof.
  pose proof (compute_pose_run align_vectors center angle s) as H.
  cbv zeta in H. rewrite H. reflexivity.
Qed.

Lemma waypoint_loop_keeps_state (center : vec3) (n : Z) (s : Client) :
  forall indices acc,
    snd (waypoint_loop align_vectors center n indices acc s) = s.
Proof.
  induction indices as [| i rest IH]; intro acc; [reflexivity |].
  simpl. unfold bind.
  pose proof (compute_pose_keeps_state center (2 * PI * IZR i / IZR n) s)
    as Hs.
  destruct (_compute_pose_on_circle align_vectors center
              (2 * PI * IZR i / IZR n) s) as [[e | w] s'];
    simpl in Hs; subst s'.
  - reflexivity.
  - apply IH.
Qed.

(** X4: when the transform lookup raises, [surround_and_lock] raises the
    same exception and has written nothing to the client; when it
    succeeds, the client afterwards holds the session (start position,
    start orientation, bearing), whether or not the waypoint loop went
    through, and its frame names and buffer are untouched. *)
Theorem surround_and_lock_state (center : vec3) (n : Z) (s : Client) :
  match tf_buffer s (base_link_name s) (camera_link s) with
  | inl e => surround_and_lock align_vectors center n s = (inl e, s)
  | inr t =>
      let s' := snd (surround_and_lock align_vectors center n s) in
      s' = orbit_session s t center /\
      _circular_path_initial_position s' = translation t /\
      _circular_path_initial_orientation s' = rotation t /\
      camera_link s' = camera_link s /\
      base_link_name s' = base_link_name s /\
      tf_buffer s' = tf_buffer s
  end.
Proof.
  destruct (tf_buffer s (base_link_name s) (camera_link s)) as [e | t] eqn:Ht.
  - apply surround_and_lock_lookup_fails. exact Ht.
  - cbv zeta.
    rewrite (surround_and_lock_run align_vectors center n s t Ht).
    rewrite waypoint_loop_keeps_state.
    unfold orbit_session; simpl. rewrite vec3_eta, quat_eta.
    repeat split.
Qed.

(** X5: what [surround_and_lock] returns depends on the client only
    through its camera frame, base frame and transform buffer: whatever an
    earlier session left in the session fields has no effect. *)
Theorem surround_and_lock_ignores_stale_session (center : vec3) (n : Z)
        (s1 s2 : Client) :
  camera_link s1 = camera_link s2 ->
  base_link_name s1 = base_link_name s2 ->
  tf_buffer s1 = tf_buffer s2 ->
  fst (surround_and_lock align_vectors center n s1)
  = fst (surround_and_lock align_vectors center n s2).
Proof.
  intros Hc Hb Hf.
  destruct (tf_buffer s1 (base_link_name s1) (camera_link s1))
    as [e | t] eqn:Ht.
  - assert (Ht2 : tf_buffer s2 (base_link_name s2) (camera_link s2) = inl e)
      by (rewrite <- Hc, <- Hb, <- Hf; exact Ht).
    rewrite (surround_and_lock_lookup_fails align_vectors center n s1 e Ht).
    rewrite (surround_and_lock_lookup_fails align_vectors center n s2 e Ht2).
    reflexivity.
  - assert (Ht2 : tf_buffer s2 (base_link_name s2) (camera_link s2) = inr t)
      by (rewrite <- Hc, <- Hb, <- Hf; exact Ht).
    rewrite (surround_and_lock_run align_vectors center n s1 t Ht).
    rewrite (surround_and_lock_run align_vectors center n s2 t Ht2).
    replace (orbit_session s2 t center) with (orbit_session s1 t center).
    + reflexivity.
    + unfold orbit_session, set_angle_offset, set_initial_orientation,
        set_initial_position; simpl. rewrite Hc, Hb, Hf. reflexivity.
Qed.

End Sessions.

Section OrbitShape.

Variable align_vectors : ndarray -> vec3 -> result RotationObject.
Hypothesis align_contract : aligns_reference align_vectors.

(** X7: on a proper orbit every returned orientation is a unit
    quaternion. *)
Theorem waypoint_orientation_unit (center : vec3) (n : Z) (s : Client)
        (t : Transform) (ws : list Pose) (w : Pose) :
  tf_buffer s (base_link_name s) (camera_link s) = inr t ->
  translation t <> center ->
  fst (surround_and_lock align_vectors center n s) = inr ws ->
  In w ws ->
  unit_quat (orientation w).
Proof.
  intros Ht Hne Hrun Hin.
  destruct (orbit_waypoints align_vectors align_contract center n s t Ht Hne)
    as [ws' [Hrun' Hf]].
  rewrite Hrun' in Hrun. simpl in Hrun. inversion Hrun; subst ws'.
  destruct (Forall2_In_r _ _ _ _ Hf Hin) as [i [_ Hw]].
  destruct (compute_pose_valid align_vectors align_contract center
              (waypoint_angle n i) (orbit_session s t center))
    as [w' [g [Hw' [_ [_ [Hu [Ho _]]]]]]].
  { rewrite orbit_session_position. exact Hne. }
  rewrite Hw in Hw'. inversion Hw'; subst w'.
  rewrite Ho. apply rot_mul_unit; [exact Hu | apply from_euler_z_unit].
Qed.

(** X8: asked for the angle 0 right after a session has started off the
    centre, [_compute_pose_on_circle] returns a pose on the horizontal
    ray from the centre through the start; that pose is the starting
    position itself exactly when the start is level with the centre, and
    the angle [2*pi] gives the same position again. *)
Theorem pose_at_angle_zero (center : vec3) (s : Client) (t : Transform) :
  translation t <> center ->
  let sess := orbit_session s t center in
  exists w0 w1,
    _compute_pose_on_circle align_vectors center 0 sess = (inr w0, sess) /\
    _compute_pose_on_circle align_vectors center (2 * PI) sess
      = (inr w1, sess) /\
    position w1 = position w0 /\
    dist_xy (translation t) center * (vx (position w0) - vx center)
      = dist3 (translation t) center * (vx (translation t) - vx center) /\
    dist_xy (translation t) center * (vy (position w0) - vy center)
      = dist3 (translation t) center * (vy (translation t) - vy center) /\
    (position w0 = translation t <-> vz (translation t) = vz center).
Proof.
  intros Hne sess.
  assert (Hp : _circular_path_initial_position sess = translation t)
    by apply orbit_session_position.
  destruct (compute_pose_valid align_vectors align_contract center 0 sess)
    as [w0 [g0 [Hw0 [Hpos0 _]]]]; [rewrite Hp; exact Hne |].
  destruct (compute_pose_valid align_vectors align_contract center (2 * PI)
              sess) as [w1 [g1 [Hw1 [Hpos1 _]]]]; [rewrite Hp; exact Hne |].
  exists w0, w1. split; [exact Hw0 |]. split; [exact Hw1 |].
  rewrite Hp in Hpos0, Hpos1.
  assert (Hoff : _circular_path_angle_offset sess
                 = atan2 (vy (translation t) - vy center)
                         (vx (translation t) - vx center)).
  { unfold sess, orbit_session; simpl. reflexivity. }
  rewrite cos_shift_2PI in Hpos1.
  replace (sin (_circular_path_angle_offset sess + 2 * PI))
    with (sin (_circular_path_angle_offset sess)) in Hpos1
    by (rewrite sin_plus, cos_2PI, sin_2PI; ring).
  rewrite Rplus_0_r in Hpos0.
  split; [rewrite Hpos0, Hpos1; reflexivity |].
  destruct (atan2_polar (vx (translation t) - vx center)
                        (vy (translation t) - vy center)) as [Hc Hs].
  rewrite <- Hoff in Hc, Hs.
  set (a := _circular_path_angle_offset sess) in *.
  fold (dist_xy (translation t) center) in Hc, Hs.
  set (rho := dist_xy (translation t) center) in *.
  fold (dist3 (translation t) center) in Hpos0.
  set (r := dist3 (translation t) center) in *.
  assert (Hr2 : r * r = rho * rho
                + (vz (translation t) - vz center)
                  * (vz (translation t) - vz center)).
  { unfold r, dist3. rewrite norm_sqr. unfold rho, dist_xy.
    rewrite sqrt_sqrt by nra. simpl. ring. }
  assert (Hr : 0 < r) by (apply dist_pos; exact Hne).
  assert (Hrho : 0 <= rho) by apply sqrt_pos.
  pose proof (sin2_cos2 a) as Hsc. unfold Rsqr in Hsc.
  rewrite Hpos0. simpl.
  split; [rewrite <- Hc; ring |].
  split; [rewrite <- Hs; ring |].
  split.
  - intro E. destruct (translation t) as [px py pz]; simpl in *.
    inversion E as [[Ex Ey]].
    assert (H1 : (r - rho) * cos a = 0) by lra.
    assert (H2 : (r - rho) * sin a = 0) by lra.
    assert (H3 : (r - rho) * (r - rho) = 0).
    { replace ((r - rho) * (r - rho))
        with ((r - rho) * cos a * ((r - rho) * cos a)
              + (r - rho) * sin a * ((r - rho) * sin a))
        by (rewrite <- (Rmult_1_r ((r - rho) * (r - rho))), <- Hsc; ring).
      rewrite H1, H2. ring. }
    assert (r = rho) by nra. subst r. nra.
  - intro E. rewrite E in Hr2.
    assert (Hrr : r = rho) by nra. rewrite Hrr.
    destruct (translation t) as [px py pz]; simpl in *.
    f_equal; lra.
Qed.

End OrbitShape.

Section OrbitSpacing.

Variable align_vectors : ndarray -> vec3 -> result RotationObject.
Hypothesis align_contract : aligns_reference align_vectors.

Lemma chord_sqr (cx cy z r a b : R) :
  let p := mkVec (cx + r * cos a) (cy + r * sin a) z in
  let q := mkVec (cx + r * cos b) (cy + r * sin b) z in
  dist3 p q * dist3 p q = 2 * (r * r) * (1 - cos (b - a)).
Proof.
  cbv zeta. unfold dist3. rewrite norm_sqr. simpl.
  rewrite cos_minus.
  pose proof (sin2_cos2 a) as Ha. pose proof (sin2_cos2 b) as Hb.
  unfold Rsqr in Ha, Hb.
  replace ((cx + r * cos a - (cx + r * cos b))
           * (cx + r * cos a - (cx + r * cos b))
           + (cy + r * sin a - (cy + r * sin b))
             * (cy + r * sin a - (cy + r * sin b))
           + (z - z) * (z - z))
    with (r * r * ((sin a * sin a + cos a * cos a)
                   + (sin b * sin b + cos b * cos b)
                   - 2 * (cos b * cos a + sin b * sin a))) by ring.
  rewrite Ha, Hb. ring.
Qed.

(** X9: the waypoints of a proper orbit are evenly spaced: any two
    consecutive poses of the returned list are the same distance apart,
    the chord of the angle [2*pi/N] on the circle of radius
    [|P0 - center|]. *)
Theorem consecutive_waypoints_chord (center : vec3) (n : Z) (s : Client)
        (t : Transform) (ws : list Pose) (k : nat) :
  tf_buffer s (base_link_name s) (camera_link s) = inr t ->
  translation t <> center ->
  fst (surround_and_lock align_vectors center n s) = inr ws ->
  (S k < List.length ws)%nat ->
  let d := mkPose zero_vec (mkQuat 0 0 0 1) in
  let r := dist3 (translation t) center in
  dist3 (position (nth k ws d)) (position (nth (S k) ws d))
  * dist3 (position (nth k ws d)) (position (nth (S k) ws d))
  = 2 * (r * r) * (1 - cos (2 * PI / IZR n)).
Proof.
  intros Ht Hne Hrun Hk d r.
  destruct (orbit_waypoints align_vectors align_contract center n s t Ht Hne)
    as [ws' [Hrun' Hf]].
  rewrite Hrun' in Hrun. simpl in Hrun. inversion Hrun; subst ws'.
  assert (Hlen : List.length ws = Z.to_nat (n - 1)).
  { rewrite <- (Forall2_length Hf). apply range_length. }
  assert (Hn : IZR n <> 0) by (apply not_0_IZR; lia).
  set (sess := orbit_session s t center) in *.
  assert (Hp : _circular_path_initial_position sess = translation t)
    by apply orbit_session_position.
  assert (Hat : forall j, (j < List.length ws)%nat ->
            position (nth j ws d)
            = mkVec (vx center + r * cos (_circular_path_angle_offset sess
                                          + waypoint_angle n (1 + Z.of_nat j)))
                    (vy center + r * sin (_circular_path_angle_offset sess
                                          + waypoint_angle n (1 + Z.of_nat j)))
                    (vz (translation t))).
  { intros j Hj.
    pose proof (Forall2_nth _ _ _ 0%Z d Hf j Hj) as Hnth.
    cbv beta in Hnth. rewrite range_nth in Hnth by lia.
    destruct (compute_pose_valid align_vectors align_contract center
                (waypoint_angle n (1 + Z.of_nat j)) sess)
      as [w' [g [Hw' [Hpos _]]]]; [rewrite Hp; exact Hne |].
    rewrite Hnth in Hw'. inversion Hw' as [Hw]. rewrite <- Hw in Hpos.
    rewrite Hp in Hpos. exact Hpos. }
  rewrite (Hat k) by lia. rewrite (Hat (S k)) by lia.
  rewrite chord_sqr. f_equal. f_equal. f_equal.
  unfold waypoint_angle. rewrite Nat2Z.inj_succ, <- Z.add_1_r.
  rewrite !plus_IZR. field. exact Hn.
Qed.

End OrbitSpacing.

(** ** More on camera-frame discovery *)

Lemma tf_callback_snoc (msg : TFMessage) (transform : TransformStamped)
      (camera : string) :
  _tf_callback (msg ++ [transform]) camera
  = if is_eef_record transform then child_frame_id transform
    else _tf_callback msg camera.
Proof.
  unfold _tf_callback, is_eef_record. rewrite fold_left_app. reflexivity.
Qed.

(** X10: the callback has no [break]: when a message holds several
    records whose parent is ['link_eef'], the child of the last one is
    what [camera_link] ends up as; with no such record it is left as it
    was. *)
Theorem tf_callback_last_wins (msg : TFMessage) (camera : string) :
  _tf_callback msg camera
  = match last_eef_child msg with
    | Some child => child
    | None => camera
    end.
Proof.
  induction msg as [| transform msg IH] using rev_ind; [reflexivity |].
  rewrite tf_callback_snoc. unfold last_eef_child.
  rewrite rev_app_distr. simpl.
  destruct (is_eef_record transform); [reflexivity |].
  exact IH.
Qed.

Lemma deliver_keeps_rest (msgs : list TFMessage) (st : Discovery) :
  deliver msgs st
  = mkDiscovery (heard msgs (d_camera_link st)) (counter st) (warnings st)
                (subscriptions st).
Proof. reflexivity. Qed.

Lemma loop_body_warned_late (st : Discovery) :
  counted st -> warned_late st -> warned_late (loop_body st).
Proof.
  unfold counted, warned_late, loop_body. intros [Hs Hc] Hw.
  destruct (Z.leb_spec (counter st) 10000); simpl.
  - intro Hne. specialize (Hw Hne). lia.
  - intros _. lia.
Qed.

Lemma discovery_loop_invariant (feed : nat -> list TFMessage) (fuel : nat) :
  forall k st st',
    counted st -> warned_late st ->
    discovery_loop feed fuel k st = Some st' ->
    counted st' /\ warned_late st' /\ d_camera_link st' <> ""%string.
Proof.
  induction fuel as [| fuel IH]; intros k st st' Hc Hw Hrun; [discriminate |].
  rewrite discovery_loop_step in Hrun.
  destruct (String.eqb_spec
              (d_camera_link (deliver (feed (2 * k)%nat) st)) "")
    as [E | NE].
  - eapply IH; [| | exact Hrun].
    + apply loop_body_counted. exact Hc.
    + apply loop_body_warned_late; [exact Hc | exact Hw].
  - inversion Hrun; subst st'.
    split; [exact Hc |]. split; [exact Hw | exact NE].
Qed.

(** X11: whenever the discovery loop ends, whatever the callback was
    fed, [camera_link] is not the empty string; and if the fallback
    warning was logged, all 10001 subscriptions had been created
    first. *)
Theorem discovery_ends_named (feed : nat -> list TFMessage) (fuel : nat)
        (st : Discovery) :
  discovery_loop feed fuel 0 discovery_start = Some st ->
  d_camera_link st <> ""%string /\
  (warnings st <> [] -> Z.of_nat (subscriptions st) = 10001%Z).
Proof.
  intro Hrun.
  destruct (discovery_loop_invariant feed fuel 0 discovery_start st)
    as [[Hs Hc] [Hw Hn]]; try exact Hrun.
  - unfold counted, discovery_start; simpl. lia.
  - unfold warned_late, discovery_start; simpl. intro H. contradiction H.
    reflexivity.
  - split; [exact Hn |]. intro Hne. rewrite Hs. apply Hw, Hne.
Qed.

Section Found.

Variable feed : nat -> list TFMessage.
Variable k : nat.
Hypothesis attempts_left : (Z.of_nat k <= 10000)%Z.
Hypothesis silent_before : forall n, (n < 2 * k + 1)%nat -> silent_batch (feed n).

Lemma deliver_silent (n : nat) (st : Discovery) :
  (n < 2 * k + 1)%nat -> deliver (feed n) st = st.
Proof.
  intro Hn. apply deliver_no_match. intros msg tr Hm Htr.
  exact (silent_before n Hn msg tr Hm Htr).
Qed.

Lemma discovery_finds (m : nat) :
  forall (j extra : nat),
    (j + m = k)%nat ->
    heard (feed (2 * k + 2)%nat) (heard (feed (2 * k + 1)%nat) "")
      <> ""%string ->
    discovery_loop feed (m + 2 + extra) j
                   (mkDiscovery "" (Z.of_nat j) [] j)
    = Some (mkDiscovery
              (heard (feed (2 * k + 2)%nat) (heard (feed (2 * k + 1)%nat) ""))
              (Z.of_nat k + 1) [] (S k)).
Proof.
  induction m as [| m IH]; intros j extra Hj Hc.
  - assert (j = k) by lia. subst j.
    change (0 + 2 + extra)%nat with (S (S extra)).
    rewrite discovery_loop_step.
    rewrite (deliver_silent (2 * k)) by lia.
    cbn [d_camera_link String.eqb].
    rewrite deliver_keeps_rest. cbn [d_camera_link counter warnings subscriptions].
    unfold loop_body, _init_camera_link.
    cbn [d_camera_link counter warnings subscriptions].
    destruct (Z.leb_spec (Z.of_nat k) 10000) as [_ | Hgt]; [| exfalso; lia].
    rewrite discovery_loop_step, deliver_keeps_rest.
    cbn [d_camera_link counter warnings subscriptions].
    replace (2 * S k)%nat with (2 * k + 2)%nat by lia.
    destruct (String.eqb_spec
                (heard (feed (2 * k + 2)%nat)
                       (heard (feed (2 * k + 1)%nat) "")) "")
      as [E | _]; [contradiction |].
    reflexivity.
  - change (S m + 2 + extra)%nat with (S (m + 2 + extra)).
    rewrite discovery_loop_step.
    rewrite (deliver_silent (2 * j)) by lia.
    cbn [d_camera_link String.eqb].
    rewrite (deliver_silent (2 * j + 1)) by lia.
    unfold loop_body, _init_camera_link.
    cbn [d_camera_link counter warnings subscriptions].
    destruct (Z.leb_spec (Z.of_nat j) 10000) as [_ | Hgt]; [| exfalso; lia].
    replace (Z.of_nat j + 1)%Z with (Z.of_nat (S j)) by lia.
    apply IH; [lia | exact Hc].
Qed.

End Found.

(** X12: if the callback first hears of a child of ['link_eef'] while
    attempt [k + 1] (of the 10001) is under way, and the name it holds at
    the next loop test is not empty, the loop ends there: that name is the
    camera frame, [k + 1] subscriptions have been created and no warning
    is logged. *)
Theorem discovery_finds_camera (feed : nat -> list TFMessage) (k fuel : nat) :
  (Z.of_nat k <= 10000)%Z ->
  (forall n, (n < 2 * k + 1)%nat -> silent_batch (feed n)) ->
  heard (feed (2 * k + 2)%nat) (heard (feed (2 * k + 1)%nat) "")
    <> ""%string ->
  (k + 2 <= fuel)%nat ->
  discovery_loop feed fuel 0 discovery_start
  = Some (mkDiscovery
            (heard (feed (2 * k + 2)%nat) (heard (feed (2 * k + 1)%nat) ""))
            (Z.of_nat k + 1) [] (S k)).
Proof.
  intros Hk Hsilent Hc Hfuel.
  replace fuel with (k + 2 + (fuel - (k + 2)))%nat by lia.
  exact (discovery_finds feed k Hk Hsilent k 0%nat (fuel - (k + 2))%nat
           (Nat.add_0_l k) Hc).
Qed.

(** ** [rotate_to_perpendicular] *)

Lemma as_matrix_compose (p q : Rotation) :
  as_matrix (compose_quat p q) = mat_mul (as_matrix p) (as_matrix q).
Proof. unfold as_matrix, mat_mul, compose_quat; simpl. f_equal; ring. Qed.

Lemma column2_as_matrix (q : Rotation) :
  column2 (as_matrix q) = rot_apply q ref_forward.
Proof.
  unfold column2, as_matrix, rot_apply, ref_forward; simpl. f_equal; ring.
Qed.

Lemma as_matrix_apply (p q : Rotation) (v : vec3) :
  as_matrix p = as_matrix q -> rot_apply p v = rot_apply q v.
Proof.
  unfold as_matrix, rot_apply. intro H. inversion H as [[H00 H01 H02 H10 H11 H12 H20 H21 H22]].
  rewrite H00, H01, H02, H10, H11, H12, H20, H21, H22. reflexivity.
Qed.

Lemma compose_unit (p q : Rotation) :
  unit_quat p -> unit_quat q -> unit_quat (compose_quat p q).
Proof.
  unfold unit_quat. intros Hp Hq. rewrite compose_quat_norm, Hp, Hq. ring.
Qed.

(** A rotation about z turns the horizontal part of a vector. *)
Lemma rot_apply_euler_z (a : R) (v : vec3) :
  rot_apply (from_euler_z a) v
  = mkVec (cos a * vx v - sin a * vy v) (sin a * vx v + cos a * vy v) (vz v).
Proof.
  assert (Hc : cos a = cos (a / 2) * cos (a / 2) - sin (a / 2) * sin (a / 2)).
  { rewrite <- cos_2a. f_equal. field. }
  assert (Hs : sin a = 2 * sin (a / 2) * cos (a / 2)).
  { rewrite <- sin_2a. f_equal. field. }
  pose proof (sin2_cos2 (a / 2)) as H1. unfold Rsqr in H1.
  unfold rot_apply, from_euler_z; simpl. rewrite Hc, Hs.
  f_equal; try ring.
  replace (- (0 * 0) - 0 * 0 + sin (a / 2) * sin (a / 2)
           + cos (a / 2) * cos (a / 2)) with 1 by lra.
  ring.
Qed.

Lemma atan2_on_positive_axis (rho : R) : 0 <= rho -> atan2 0 rho = 0.
Proof.
  intro H. unfold atan2.
  destruct (Rlt_dec 0 rho).
  - replace (0 / rho) with 0 by (field; lra). apply atan_0.
  - destruct (Rlt_dec rho 0); [exfalso; lra |].
    destruct (Rlt_dec 0 0); [exfalso; lra |]. reflexivity.
Qed.

Lemma as_matrix_euler_z_zero : as_matrix (from_euler_z (- 0)) = identity_matrix.
Proof.
  unfold from_euler_z. replace (- 0 / 2) with 0 by field.
  rewrite sin_0, cos_0. unfold as_matrix, identity_matrix; simpl.
  f_equal; ring.
Qed.

Lemma mat_mul_identity_l (m : mat3) : mat_mul identity_matrix m = m.
Proof.
  destruct m. unfold mat_mul, identity_matrix; simpl. f_equal; ring.
Qed.

Section PerpendicularProperties.

Variable from_matrix : mat3 -> Rotation.
Hypothesis from_matrix_contract : inverts_as_matrix from_matrix.

(** The rotation [rotate_to_perpendicular] returns, up to the sign of its
    quaternion. *)
Lemma rotate_to_perpendicular_matrix (q : Rotation) :
  unit_quat q ->
  let z := rot_apply q ref_forward in
  unit_quat (rotate_to_perpendicular from_matrix q) /\
  as_matrix (rotate_to_perpendicular from_matrix q)
  = as_matrix (compose_quat (from_euler_z (- atan2 (vy z) (vx z))) q).
Proof.
  intros Hq z. unfold rotate_to_perpendicular. cbv zeta.
  rewrite column2_as_matrix. cbn [vx vy]. fold z.
  rewrite <- as_matrix_compose.
  apply from_matrix_contract.
  apply compose_unit; [apply from_euler_z_unit | exact Hq].
Qed.

Lemma rotate_to_perpendicular_image (q : Rotation) :
  unit_quat q ->
  let z := rot_apply q ref_forward in
  unit_quat (rotate_to_perpendicular from_matrix q) /\
  rot_apply (rotate_to_perpendicular from_matrix q) ref_forward
  = mkVec (sqrt (vx z * vx z + vy z * vy z)) 0 (vz z).
Proof.
  intros Hq z.
  destruct (rotate_to_perpendicular_matrix q Hq) as [Hu Hm].
  split; [exact Hu |].
  rewrite (as_matrix_apply _ _ ref_forward Hm).
  rewrite rot_apply_compose. fold z.
  rewrite rot_apply_euler_z, cos_neg, sin_neg.
  destruct (atan2_polar (vx z) (vy z)) as [Hc Hs].
  set (a := atan2 (vy z) (vx z)) in *.
  set (rho := sqrt (vx z * vx z + vy z * vy z)) in *.
  pose proof (sin2_cos2 a) as H1. unfold Rsqr in H1.
  f_equal.
  - rewrite <- Hc at 1. rewrite <- Hs at 1.
    replace (cos a * (rho * cos a) - - sin a * (rho * sin a))
      with (rho * (sin a * sin a + cos a * cos a)) by ring.
    rewrite H1. ring.
  - rewrite <- Hc at 1. rewrite <- Hs at 1. ring.
Qed.

(** X13: [rotate_to_perpendicular] turns a rotation about the world z
    axis so that the image of the local z axis has no y component and a
    non-negative x component: it becomes
    [(sqrt (zx^2 + zy^2), 0, zz)], the height [zz] kept, and the result
    is again a unit quaternion. *)
Theorem rotate_to_perpendicular_z_axis (q : Rotation) :
  unit_quat q ->
  let z := rot_apply q ref_forward in
  unit_quat (rotate_to_perpendicular from_matrix q) /\
  rot_apply (rotate_to_perpendicular from_matrix q) ref_forward
  = mkVec (sqrt (vx z * vx z + vy z * vy z)) 0 (vz z) /\
  0 <= sqrt (vx z * vx z + vy z * vy z).
Proof.
  intros Hq z.
  destruct (rotate_to_perpendicular_image q Hq) as [Hu Hz].
  split; [exact Hu |]. split; [exact Hz | apply sqrt_pos].
Qed.

(** X14: applying [rotate_to_perpendicular] to its own result changes
    nothing: the second call finds the z axis already over the x axis and
    turns by the angle 0. *)
Theorem rotate_to_perpendicular_idempotent (q : Rotation) :
  unit_quat q ->
  as_matrix (rotate_to_perpendicular from_matrix
               (rotate_to_perpendicular from_matrix q))
  = as_matrix (rotate_to_perpendicular from_matrix q).
Proof.
  intro Hq.
  destruct (rotate_to_perpendicular_image q Hq) as [Hu Hz].
  cbv zeta in Hz.
  set (q1 := rotate_to_perpendicular from_matrix q) in *.
  unfold rotate_to_perpendicular at 1. cbv zeta.
  rewrite column2_as_matrix, Hz. cbn [vx vy].
  rewrite atan2_on_positive_axis by apply sqrt_pos.
  rewrite as_matrix_euler_z_zero, mat_mul_identity_l.
  apply from_matrix_contract. exact Hu.
Qed.

End PerpendicularProperties.

(** The largest-entry reading of a rotation matrix meets the contract. *)

Lemma scaled_quat_matrix (p : Rotation) (k : R) :
  unit_quat p -> k <> 0 ->
  let q := mkQuat (k * qx p) (k * qy p) (k * qz p) (k * qw p) in
  unit_quat (qnormalize q) /\ as_matrix (qnormalize q) = as_matrix p.
Proof.
  intros Hp Hk q.
  assert (Hn : qnorm2 q = k²).
  { unfold qnorm2, q, Rsqr; simpl. unfold unit_quat, qnorm2 in Hp.
    replace (k * qx p * (k * qx p) + k * qy p * (k * qy p)
             + k * qz p * (k * qz p) + k * qw p * (k * qw p))
      with (k * k * (qx p * qx p + qy p * qy p + qz p * qz p + qw p * qw p))
      by ring.
    rewrite Hp. ring. }
  assert (Hpos : 0 < qnorm2 q).
  { rewrite Hn. unfold Rsqr. nra. }
  split; [apply qnormalize_unit; exact Hpos |].
  unfold qnormalize. rewrite Hn, sqrt_Rsqr_abs.
  unfold as_matrix, q; simpl.
  unfold Rabs. destruct (Rcase_abs k); f_equal; field; lra.
Qed.

Lemma argmax4_spec (d0 d1 d2 d3 : R) :
  match argmax4 d0 d1 d2 d3 with
  | 0%nat => d1 <= d0 /\ d2 <= d0 /\ d3 <= d0
  | 1%nat => d0 <= d1 /\ d2 <= d1 /\ d3 <= d1
  | 2%nat => d0 <= d2 /\ d1 <= d2 /\ d3 <= d2
  | 3%nat => d0 <= d3 /\ d1 <= d3 /\ d2 <= d3
  | _ => False
  end.
Proof.
  unfold argmax4.
  destruct (Rle_dec d1 d0); destruct (Rle_dec d2 d0);
    destruct (Rle_dec d3 d0); destruct (Rle_dec d3 d2);
    destruct (Rle_dec d2 d1); destruct (Rle_dec d3 d1);
    repeat split; lra.
Qed.

Lemma largest_entry_contract : inverts_as_matrix largest_entry_from_matrix.
Proof.
  intros p Hp. pose proof Hp as Hu. unfold unit_quat, qnorm2 in Hu.
  destruct p as [x y z w]; simpl in Hu.
  unfold largest_entry_from_matrix.
  cbn [as_matrix m00 m01 m02 m10 m11 m12 m20 m21 m22 qx qy qz qw].
  pose proof (argmax4_spec
                (x * x - y * y - z * z + w * w)
                (- (x * x) + y * y - z * z + w * w)
                (- (x * x) - y * y + z * z + w * w)
                (x * x - y * y - z * z + w * w
                 + (- (x * x) + y * y - z * z + w * w)
                 + (- (x * x) - y * y + z * z + w * w))) as Hmax.
  destruct (argmax4 _ _ _ _) as [| [| [| [| n]]]];
    [ | | | | contradiction ]; destruct Hmax as [H1 [H2 H3]].
  - replace (mkQuat _ _ _ _)
      with (mkQuat (4 * x * x) (4 * x * y) (4 * x * z) (4 * x * w))
      by (f_equal; nra).
    apply (scaled_quat_matrix (mkQuat x y z w) (4 * x) Hp). nra.
  - replace (mkQuat _ _ _ _)
      with (mkQuat (4 * y * x) (4 * y * y) (4 * y * z) (4 * y * w))
      by (f_equal; nra).
    apply (scaled_quat_matrix (mkQuat x y z w) (4 * y) Hp). nra.
  - replace (mkQuat _ _ _ _)
      with (mkQuat (4 * z * x) (4 * z * y) (4 * z * z) (4 * z * w))
      by (f_equal; nra).
    apply (scaled_quat_matrix (mkQuat x y z w) (4 * z) Hp). nra.
  - replace (mkQuat _ _ _ _)
      with (mkQuat (4 * w * x) (4 * w * y) (4 * w * z) (4 * w * w))
      by (f_equal; nra).
    apply (scaled_quat_matrix (mkQuat x y z w) (4 * w) Hp). nra.
Qed.

(** ** [collision_setup] *)

Lemma sphere_is_not_box (ty : pyvalue) :
  is_str ty "sphere" = true -> is_str ty "box" = false.
Proof.
  destruct ty as [s | r | items]; simpl; try discriminate.
  intro H. apply String.eqb_eq in H. subst s. reflexivity.
Qed.

Lemma value_or_get (d : pydict) (key : string) (v : pyvalue) :
  getitem d key = inr v -> value_or d key = v.
Proof. unfold value_or. intros ->. reflexivity. Qed.

Lemma add_obstacle_well_formed (d : pydict) :
  well_formed d -> add_obstacle d = (calls_of d, None).
Proof.
  intros [ty [Hty [Hsphere Hbox]]].
  unfold add_obstacle, calls_of. rewrite Hty, (value_or_get _ _ _ Hty).
  destruct (is_str ty "sphere") eqn:Es.
  - specialize (Hsphere eq_refl).
    destruct (Hsphere "id"%string) as [id Hid]; [simpl; tauto |].
    destruct (Hsphere "position"%string) as [pos Hpos]; [simpl; tauto |].
    destruct (Hsphere "radius"%string) as [rad Hrad]; [simpl; tauto |].
    rewrite Hid, Hpos, Hrad, (sphere_is_not_box ty Es).
    rewrite (value_or_get _ _ _ Hid), (value_or_get _ _ _ Hpos),
      (value_or_get _ _ _ Hrad).
    reflexivity.
  - destruct (is_str ty "box") eqn:Eb; [| reflexivity].
    specialize (Hbox eq_refl).
    destruct (Hbox "id"%string) as [id Hid]; [simpl; tauto |].
    destruct (Hbox "position"%string) as [pos Hpos]; [simpl; tauto |].
    destruct (Hbox "quat_xyzw"%string) as [quat Hquat]; [simpl; tauto |].
    destruct (Hbox "size"%string) as [size Hsize]; [simpl; tauto |].
    rewrite Hid, Hpos, Hquat, Hsize.
    rewrite (value_or_get _ _ _ Hid), (value_or_get _ _ _ Hpos),
      (value_or_get _ _ _ Hquat), (value_or_get _ _ _ Hsize).
    reflexivity.
Qed.

Lemma has_keys_cons (d : pydict) (key : string) (keys : list string) (v : pyvalue) :
  getitem d key = inr v -> has_keys d keys -> has_keys d (key :: keys).
Proof.
  intros Hk Hrest k [<- | Hin]; [exists v; exact Hk | apply Hrest, Hin].
Qed.

Lemma has_keys_nil (d : pydict) : has_keys d [].
Proof. intros k []. Qed.

Lemma add_obstacle_ill_formed (d : pydict) :
  ~ well_formed d -> exists key, add_obstacle d = ([], Some (MissingKey key)).
Proof.
  intro Hbad. unfold add_obstacle.
  destruct (getitem d "type") as [[key] | ty] eqn:Hty;
    [exists key; reflexivity |].
  destruct (is_str ty "sphere") eqn:Es.
  - destruct (getitem d "id") as [[key] | id] eqn:Hid;
      [exists key; reflexivity |].
    destruct (getitem d "position") as [[key] | pos] eqn:Hpos;
      [exists key; reflexivity |].
    destruct (getitem d "radius") as [[key] | rad] eqn:Hrad;
      [exists key; reflexivity |].
    exfalso. apply Hbad. exists ty. split; [exact Hty |]. split.
    + intros _. repeat (eapply has_keys_cons; [eassumption |]).
      apply has_keys_nil.
    + rewrite (sphere_is_not_box ty Es). discriminate.
  - destruct (is_str ty "box") eqn:Eb.
    + destruct (getitem d "id") as [[key] | id] eqn:Hid;
        [exists key; reflexivity |].
      destruct (getitem d "position") as [[key] | pos] eqn:Hpos;
        [exists key; reflexivity |].
      destruct (getitem d "quat_xyzw") as [[key] | quat] eqn:Hquat;
        [exists key; reflexivity |].
      destruct (getitem d "size") as [[key] | size] eqn:Hsize;
        [exists key; reflexivity |].
      exfalso. apply Hbad. exists ty. split; [exact Hty |]. split.
      * rewrite Es. discriminate.
      * intros _. repeat (eapply has_keys_cons; [eassumption |]).
        apply has_keys_nil.
    + exfalso. apply Hbad. exists ty. split; [exact Hty |].
      rewrite Es, Eb. split; discriminate.
Qed.

Lemma add_obstacles_well_formed (obstacles : list pydict) :
  Forall well_formed obstacles ->
  add_obstacles obstacles = (flat_map calls_of obstacles, None).
Proof.
  induction 1 as [| d ds Hd _ IH]; [reflexivity |].
  simpl. rewrite (add_obstacle_well_formed d Hd), IH. reflexivity.
Qed.

Lemma add_obstacles_stops (good rest : list pydict) (bad : pydict) :
  Forall well_formed good -> ~ well_formed bad ->
  exists key,
    add_obstacles (good ++ bad :: rest)
    = (flat_map calls_of good, Some (MissingKey key)).
Proof.
  intros Hgood Hbad.
  destruct (add_obstacle_ill_formed bad Hbad) as [key Hkey].
  exists key.
  induction Hgood as [| d ds Hd _ IH].
  - simpl. rewrite Hkey. reflexivity.
  - simpl. rewrite (add_obstacle_well_formed d Hd), IH. reflexivity.
Qed.

Lemma poll_done_counts (done : nat -> bool) (m : nat) :
  forall k fuel,
    (forall j, (j < m)%nat -> done (k + j)%nat = false) ->
    done (k + m)%nat = true ->
    (m < fuel)%nat ->
    poll_done done fuel k = Some m.
Proof.
  induction m as [| m IH]; intros k fuel Hbefore Hat Hfuel.
  - destruct fuel as [| fuel]; [lia |]. simpl.
    rewrite Nat.add_0_r in Hat. rewrite Hat. reflexivity.
  - destruct fuel as [| fuel]; [lia |]. simpl.
    pose proof (Hbefore 0%nat ltac:(lia)) as H0.
    rewrite Nat.add_0_r in H0. rewrite H0.
    rewrite (IH (S k) fuel); [reflexivity | | | lia].
    + intros j Hj. replace (S k + j)%nat with (k + S j)%nat by lia.
      apply Hbefore. lia.
    + replace (S k + m)%nat with (k + S m)%nat by lia. exact Hat.
Qed.

Lemma poll_done_never (done : nat -> bool) :
  (forall j, done j = false) ->
  forall fuel k, poll_done done fuel k = None.
Proof.
  intros Hnever. induction fuel as [| fuel IH]; intro k; [reflexivity |].
  simpl. rewrite Hnever, IH. reflexivity.
Qed.

(** X15: with obstacles that all carry the keys their type needs,
    [collision_setup] clears the scene first, sleeps once per [done()]
    that answered no (not at all when no future was returned), and then
    adds the obstacles in their order: one sphere or box call each, and
    nothing for an obstacle of any other type.  No exception is raised. *)
Theorem collision_setup_scene (done : nat -> bool) (m fuel : nat)
        (obstacles : list pydict) :
  Forall well_formed obstacles ->
  (forall j, (j < m)%nat -> done j = false) ->
  done m = true ->
  (m < fuel)%nat ->
  collision_setup (Some done) obstacles fuel
  = Some (ClearAllCollisionObjects :: repeat Sleep m
            ++ flat_map calls_of obstacles, None) /\
  collision_setup None obstacles fuel
  = Some (ClearAllCollisionObjects :: flat_map calls_of obstacles, None).
Proof.
  intros Hwf Hbefore Hat Hfuel. unfold collision_setup.
  rewrite (poll_done_counts done m 0 fuel Hbefore Hat Hfuel).
  rewrite (add_obstacles_well_formed obstacles Hwf).
  split; reflexivity.
Qed.

(** X16: the first obstacle that lacks a key it needs stops
    [collision_setup] with a [KeyError]; the obstacles before it have
    been added already and stay added, those after it are never looked
    at; the same with no future to wait for. *)
Theorem collision_setup_key_error (future_done : nat -> bool) (m fuel : nat)
        (good rest : list pydict) (bad : pydict) :
  Forall well_formed good ->
  ~ well_formed bad ->
  (forall j, (j < m)%nat -> future_done j = false) ->
  future_done m = true ->
  (m < fuel)%nat ->
  exists key,
    collision_setup (Some future_done) (good ++ bad :: rest) fuel
    = Some (ClearAllCollisionObjects :: repeat Sleep m
              ++ flat_map calls_of good, Some (MissingKey key)) /\
    collision_setup None (good ++ bad :: rest) fuel
    = Some (ClearAllCollisionObjects :: flat_map calls_of good,
            Some (MissingKey key)).
Proof.
  intros Hgood Hbad Hbefore Hat Hfuel.
  destruct (add_obstacles_stops good rest bad Hgood Hbad) as [key Hkey].
  exists key. unfold collision_setup.
  rewrite (poll_done_counts future_done m 0 fuel Hbefore Hat Hfuel), Hkey.
  split; reflexivity.
Qed.

(** X17: while the future of the clearing request never reports done,
    [collision_setup] keeps polling: however long it is run, it has not
    returned and no obstacle has been added. *)
Theorem collision_setup_waits (done : nat -> bool) (obstacles : list pydict) :
  (forall j, done j = false) ->
  forall fuel, collision_setup (Some done) obstacles fuel = None.
Proof.
  intros Hnever fuel. unfold collision_setup.
  rewrite (poll_done_never done Hnever). reflexivity.
Qed.

(** ** The further properties at concrete inputs *)

Lemma roll_monotone_witness : roll 0 <= roll PI.
Proof.
  pose proof PI_RGT_0 as HPI.
  exact (proj1 (roll_monotone 0 PI ltac:(lra) ltac:(lra) ltac:(lra))).
Defined.

Lemma surround_and_lock_ignores_stale_session_witness :
  fst (surround_and_lock shortest_arc_align zero_vec 4
         (client_at (mkVec 1 0 0)))
  = fst (surround_and_lock shortest_arc_align zero_vec 4
           (set_angle_offset 5
              (set_initial_position (mkVec 7 7 7) (client_at (mkVec 1 0 0))))).
Proof.
  exact (surround_and_lock_ignores_stale_session shortest_arc_align
           zero_vec 4 (client_at (mkVec 1 0 0))
           (set_angle_offset 5
              (set_initial_position (mkVec 7 7 7) (client_at (mkVec 1 0 0))))
           eq_refl eq_refl eq_refl).
Defined.

Lemma waypoint_orientation_unit_witness :
  exists ws w,
    fst (surround_and_lock shortest_arc_align zero_vec 2
           (client_at (mkVec 1 0 0))) = inr ws /\
    In w ws /\ unit_quat (orientation w).
Proof.
  destruct (orbit_of_two (mkVec 1 0 0) zero_vec unit_x_off_origin)
    as [w Hrun].
  exists [w], w. split; [exact Hrun |]. split; [left; reflexivity |].
  exact (waypoint_orientation_unit shortest_arc_align
           shortest_arc_align_contract zero_vec 2 (client_at (mkVec 1 0 0))
           _ [w] w (client_at_lookup (mkVec 1 0 0)) unit_x_off_origin Hrun
           (or_introl eq_refl)).
Defined.

Lemma pose_at_angle_zero_witness :
  exists w0,
    fst (_compute_pose_on_circle shortest_arc_align zero_vec 0
           (orbit_session (client_at (mkVec 1 0 0))
              (mkTransform (mkVec 1 0 0) identity_rotation) zero_vec))
    = inr w0 /\
    position w0 = mkVec 1 0 0.
Proof.
  destruct (pose_at_angle_zero shortest_arc_align shortest_arc_align_contract
              zero_vec (client_at (mkVec 1 0 0))
              (mkTransform (mkVec 1 0 0) identity_rotation)
              unit_x_off_origin)
    as [w0 [w1 [Hw0 [_ [_ [_ [_ Hiff]]]]]]].
  exists w0. split.
  - rewrite Hw0. reflexivity.
  - apply Hiff. reflexivity.
Defined.

Lemma consecutive_waypoints_chord_witness :
  exists w1 w2 w3,
    fst (surround_and_lock shortest_arc_align zero_vec 4
           (client_at (mkVec 1 0 0))) = inr [w1; w2; w3] /\
    dist3 (position w1) (position w2) * dist3 (position w1) (position w2)
    = 2 * (dist3 (mkVec 1 0 0) zero_vec * dist3 (mkVec 1 0 0) zero_vec)
      * (1 - cos (2 * PI / 4)).
Proof.
  destruct quarter_turn_scenario as [w1 [w2 [w3 [Hrun _]]]].
  exists w1, w2, w3. split; [exact Hrun |].
  exact (consecutive_waypoints_chord shortest_arc_align
           shortest_arc_align_contract zero_vec 4 (client_at (mkVec 1 0 0))
           _ [w1; w2; w3] 0%nat (client_at_lookup (mkVec 1 0 0))
           unit_x_off_origin Hrun ltac:(simpl; lia)).
Defined.

Lemma discovery_ends_named_witness :
  exists st,
    discovery_loop (fun _ => []) (Z.to_nat 10003) 0 discovery_start = Some st /\
    d_camera_link st <> ""%string.
Proof.
  assert (Hrun : discovery_loop (fun _ => []) (Z.to_nat 10003) 0
                   discovery_start
                 = Some (mkDiscovery "link_eef" 10001 [fallback_warning]
                                     (Z.to_nat 10001))).
  { replace (Z.to_nat 10003) with (Z.to_nat 10001 + 2 + 0)%nat by lia.
    unfold discovery_start.
    rewrite (discovery_exhausts (fun _ => []) quiet_feed_silent
               (Z.to_nat 10001) 0%Z) by lia.
    reflexivity. }
  eexists. split; [exact Hrun |].
  exact (proj1 (discovery_ends_named (fun _ => []) (Z.to_nat 10003) _ Hrun)).
Defined.

Lemma static_feed_silent_before :
  forall n, (n < 2 * 0 + 1)%nat -> silent_batch (static_feed n).
Proof.
  intros n Hn. assert (n = 0%nat) by lia. subst n.
  intros msg tr Hin. destruct Hin.
Qed.

Lemma discovery_finds_camera_witness :
  discovery_loop static_feed 2 0 discovery_start
  = Some (mkDiscovery "camera_link" 1 [] 1).
Proof.
  refine (discovery_finds_camera static_feed 0 2 ltac:(lia)
            static_feed_silent_before _ ltac:(lia)).
  intro E. discriminate E.
Defined.

Lemma identity_rotation_unit : unit_quat identity_rotation.
Proof. unfold unit_quat, qnorm2, identity_rotation; simpl. ring. Qed.

Lemma rotate_to_perpendicular_z_axis_witness :
  unit_quat (rotate_to_perpendicular largest_entry_from_matrix
               identity_rotation).
Proof.
  exact (proj1 (rotate_to_perpendicular_z_axis largest_entry_from_matrix
                  largest_entry_contract identity_rotation
                  identity_rotation_unit)).
Defined.

Lemma rotate_to_perpendicular_idempotent_witness :
  as_matrix (rotate_to_perpendicular largest_entry_from_matrix
               (rotate_to_perpendicular largest_entry_from_matrix
                  identity_rotation))
  = as_matrix (rotate_to_perpendicular largest_entry_from_matrix
                 identity_rotation).
Proof.
  exact (rotate_to_perpendicular_idempotent largest_entry_from_matrix
           largest_entry_contract identity_rotation identity_rotation_unit).
Defined.

Ltac keys_present :=
  let k := fresh "k" in
  let H := fresh "H" in
  intros _ k H; simpl in H;
  repeat (destruct H as [<- | H]; [eexists; reflexivity |]);
  destruct H.

Lemma sphere_obstacle_well_formed : well_formed sphere_obstacle.
Proof.
  exists (PStr "sphere"). split; [reflexivity |].
  split; [keys_present | discriminate].
Qed.

Lemma box_obstacle_well_formed : well_formed box_obstacle.
Proof.
  exists (PStr "box"). split; [reflexivity |].
  split; [discriminate | keys_present].
Qed.

Lemma mesh_obstacle_well_formed : well_formed mesh_obstacle.
Proof.
  exists (PStr "mesh"). split; [reflexivity |]. split; discriminate.
Qed.

Lemma sphere_without_radius_ill_formed : ~ well_formed sphere_without_radius.
Proof.
  intros [ty [Hty [Hs _]]]. inversion Hty; subst ty.
  destruct (Hs eq_refl "radius"%string) as [v Hv]; [simpl; tauto |].
  discriminate Hv.
Qed.

Lemma done_after_two_before : forall j, (j < 2)%nat -> done_after_two j = false.
Proof.
  intros j Hj. unfold done_after_two. apply Nat.leb_gt. exact Hj.
Qed.

Lemma collision_setup_scene_witness :
  collision_setup (Some done_after_two)
                  [sphere_obstacle; mesh_obstacle; box_obstacle] 5
  = Some ([ClearAllCollisionObjects; Sleep; Sleep;
           AddCollisionSphere (PStr "ball") (PTuple [1; 0; 0]) (PFloat 1);
           AddCollisionBox (PStr "table") (PTuple [-1; 0; 0])
                           (PTuple [0; 0; 0; 1]) (PTuple [1; 1; 1])],
          None).
Proof.
  exact (proj1 (collision_setup_scene done_after_two 2 5
                  [sphere_obstacle; mesh_obstacle; box_obstacle]
                  (Forall_cons _ sphere_obstacle_well_formed
                     (Forall_cons _ mesh_obstacle_well_formed
                        (Forall_cons _ box_obstacle_well_formed
                           (Forall_nil _))))
                  done_after_two_before eq_refl ltac:(lia))).
Defined.

Lemma collision_setup_key_error_witness :
  exists key,
    collision_setup (Some done_after_two)
                    ([sphere_obstacle] ++ sphere_without_radius
                       :: [box_obstacle]) 5
    = Some ([ClearAllCollisionObjects; Sleep; Sleep;
             AddCollisionSphere (PStr "ball") (PTuple [1; 0; 0]) (PFloat 1)],
            Some (MissingKey key)).
Proof.
  destruct (collision_setup_key_error done_after_two 2 5
              [sphere_obstacle] [box_obstacle] sphere_without_radius
              (Forall_cons _ sphere_obstacle_well_formed (Forall_nil _))
              sphere_without_radius_ill_formed
              done_after_two_before eq_refl ltac:(lia))
    as [key [Hpolled _]].
  exists key. exact Hpolled.
Defined.

Lemma collision_setup_waits_witness :
  collision_setup (Some (fun _ => false)) [sphere_obstacle] 1000 = None.
Proof.
  exact (collision_setup_waits (fun _ => false) [sphere_obstacle]
           (fun _ => eq_refl) 1000%nat).
Defined.

(** ** All or nothing, whatever the rotation library does *)

Section AnyLibrary.

Variable align_vectors : ndarray -> vec3 -> result RotationObject.

Lemma waypoint_loop_returns (center : vec3) (n : Z) (s : Client) :
  forall indices acc ws,
    fst (waypoint_loop align_vectors center n indices acc s) = inr ws ->
    exists ws',
      ws = acc ++ ws' /\
      Forall2 (fun i w =>
                 _compute_pose_on_circle align_vectors center
                   (waypoint_angle n i) s = (inr w, s))
              indices ws'.
Proof.
  induction indices as [| i rest IH]; intros acc ws Hrun.
  - simpl in Hrun. inversion Hrun. exists []. split; [| constructor].
    rewrite app_nil_r. reflexivity.
  - simpl in Hrun. unfold bind in Hrun.
    pose proof (compute_pose_keeps_state align_vectors center
                  (2 * PI * IZR i / IZR n) s) as Hs.
    destruct (_compute_pose_on_circle align_vectors center
                (2 * PI * IZR i / IZR n) s) as [[e | w] s'] eqn:Hw;
      simpl in Hs; subst s'; [discriminate |].
    destruct (IH (acc ++ [w]) ws Hrun) as [ws' [Heq Hf]].
    exists (w :: ws'). split.
    + rewrite Heq, <- app_assoc. reflexivity.
    + constructor; [exact Hw | exact Hf].
Qed.

(** X18: [surround_and_lock] never returns a partial orbit.  Whatever
    the rotation library does, and wherever the session starts, a
    returned list has exactly [max 0 (N - 1)] poses, each at the starting
    height and at horizontal distance [|P0 - center|] from the centre. *)
Theorem surround_and_lock_all_or_nothing (center : vec3) (n : Z) (s : Client)
        (t : Transform) (ws : list Pose) :
  tf_buffer s (base_link_name s) (camera_link s) = inr t ->
  fst (surround_and_lock align_vectors center n s) = inr ws ->
  Z.of_nat (List.length ws) = Z.max 0 (n - 1) /\
  Forall (fun w =>
            vz (position w) = vz (translation t) /\
            dist_xy (position w) center = dist3 (translation t) center)
         ws.
Proof.
  intros Ht Hrun.
  rewrite (surround_and_lock_run align_vectors center n s t Ht) in Hrun.
  destruct (waypoint_loop_returns center n _ _ _ _ Hrun) as [ws' [Heq Hf]].
  simpl in Heq. subst ws'. split.
  - rewrite <- (Forall2_length Hf), range_length. lia.
  - eapply Forall2_Forall_r; [| exact Hf].
    intros i w Hw. cbv beta in Hw.
    pose proof (compute_pose_run align_vectors center (waypoint_angle n i)
                  (orbit_session s t center)) as Hp.
    cbv zeta in Hp. rewrite Hw in Hp.
    rewrite orbit_session_position in Hp.
    destruct (align_vectors _ ref_forward) as [e | [r |]];
      [discriminate | | discriminate].
    set (r0 := norm (vsub (translation t) center)) in *.
    set (a := _circular_path_angle_offset (orbit_session s t center)
              + waypoint_angle n i) in *.
    injection Hp as Hpose. rewrite Hpose. cbn [position vx vy vz].
    split; [reflexivity |].
    unfold dist_xy, dist3. cbn [position vx vy vz]. fold r0.
    pose proof (sin2_cos2 a) as Hsc. unfold Rsqr in Hsc.
    replace ((vx center + r0 * cos a - vx center)
             * (vx center + r0 * cos a - vx center)
             + (vy center + r0 * sin a - vy center)
               * (vy center + r0 * sin a - vy center))
      with (r0 * r0) by (rewrite <- (Rmult_1_r (r0 * r0)), <- Hsc; ring).
    apply sqrt_square, norm_nonneg.
Qed.

End AnyLibrary.

Lemma surround_and_lock_all_or_nothing_witness :
  exists ws,
    fst (surround_and_lock shortest_arc_align zero_vec 2
           (client_at (mkVec 1 0 0))) = inr ws /\
    Z.of_nat (List.length ws) = Z.max 0 (2 - 1).
Proof.
  destruct (orbit_of_two (mkVec 1 0 0) zero_vec unit_x_off_origin)
    as [w Hrun].
  exists [w]. split; [exact Hrun |].
  exact (proj1 (surround_and_lock_all_or_nothing shortest_arc_align
                  zero_vec 2 (client_at (mkVec 1 0 0)) _ [w]
                  (client_at_lookup (mkVec 1 0 0)) Hrun)).
Defined.
